(** * SqlTokenizer: a shallow embedding of [src/xr/sqlFormatter/SqlTokenizer.js]

    The tokenizer is a class holding a battery of regular expressions built
    once by the constructor, and a scan loop that repeatedly asks a chain of
    matchers for the next token.  The embedding keeps that shape:

    - JavaScript strings are sequences of UTF-16 code units: [str] is
      [list N];
    - the regular expressions are transcribed into a small syntax tree and
      run by a backtracking matcher that follows the ECMAScript matching
      rules (ordered alternation, greedy and lazy repetition, the rejection
      of empty iterations), returning [matches[1]];
    - a token is the object [{type, value}], whose [value] may be
      [undefined];
    - the keyword lists of the configuration are spliced into the patterns
      as pattern text; the embedding reads each word as a literal (see
      [keyword_cfg]);
    - [tokenize] is the [while] loop with explicit fuel, and ends by
      returning the token array or by raising the engine's [TypeError]. *)

From Stdlib Require Import List NArith Arith Bool String Ascii Lia.
Import ListNotations.

Local Open Scope N_scope.

(** ** Strings *)

Definition str := list N.

(** The code units of an ASCII literal. *)
Definition codes (s : string) : str :=
  List.map N_of_ascii (list_ascii_of_string s).

Definition mem (c : N) (l : str) : bool := existsb (N.eqb c) l.

(** [\s]: the WhiteSpace and LineTerminator code points. *)
Definition is_space (c : N) : bool :=
  mem c [9; 10; 11; 12; 13; 32; 160; 5760; 8232; 8233; 8239; 8287; 12288; 65279]
  || ((8192 <=? c) && (c <=? 8202)).

(** [.]: every code unit except the line terminators. *)
Definition is_dot (c : N) : bool := negb (mem c [10; 13; 8232; 8233]).

Definition in_range (lo hi c : N) : bool := (lo <=? c) && (c <=? hi).

Definition is_digit (c : N) : bool := in_range 48 57 c.

(** Canonicalize under the [i] flag.  Every character written in a pattern
    of this file under that flag is ASCII, and no code unit from 128 up
    canonicalizes to an ASCII one, so upper-casing [a-z] decides every
    comparison the matcher makes. *)
Definition canonicalize (c : N) : N :=
  if in_range 97 122 c then c - 32 else c.

Definition char_match (i : bool) (a c : N) : bool :=
  if i then canonicalize a =? canonicalize c else a =? c.

(** ** Regular expressions *)

Inductive regex : Type :=
| Empty
| Char (a : N)
| Class (p : N -> bool)
| Eoi
| Seq (r1 r2 : regex)
| Alt (r1 r2 : regex)
| Star (greedy : bool) (r : regex)
| Opt (r : regex).

(** [r+] is one iteration followed by [r*]. *)
Definition Plus (r : regex) : regex := Seq r (Star true r).

(** The characters of [w], one after the other. *)
Fixpoint Lit (w : str) : regex :=
  match w with
  | [] => Empty
  | a :: w' => Seq (Char a) (Lit w')
  end.

(** [a|b|...] for a non-empty list of alternatives. *)
Fixpoint alts (r : regex) (rs : list regex) : regex :=
  match rs with
  | [] => r
  | r' :: rs' => Alt r (alts r' rs')
  end.

(** The pattern text [words.join("|")]: an empty array joins to the empty
    pattern.  Each word is read as a literal, which is what the spliced
    text means to the engine when the word holds no pattern syntax (the
    configurations of [keyword_cfg]); the statements that depend on the
    keyword rules are made for those configurations. *)
Definition join (words : list str) : regex :=
  match words with
  | [] => Empty
  | w :: ws => alts (Lit w) (List.map Lit ws)
  end.

Definition orelse {A} (x y : option A) : option A :=
  match x with Some _ => x | None => y end.

(** One repetition loop [r*] (greedy) or [r*?] (lazy): [body] matches one
    iteration, [k] is what follows the repetition.  An iteration that
    consumes nothing is rejected (the end index must move), so [n], the
    number of iterations still allowed, never needs to exceed the length of
    the remaining input. *)
Fixpoint star_loop (greedy : bool)
    (body : str -> (str -> option str) -> option str)
    (k : str -> option str) (n : nat) (s : str) : option str :=
  match n with
  | O => k s
  | S n' =>
      let iter :=
        body s (fun s1 =>
          if (List.length s1 =? List.length s)%nat then None
          else star_loop greedy body k n' s1) in
      if greedy then orelse iter (k s) else orelse (k s) iter
  end.

(** The matcher, in continuation-passing style: [k] is what remains of the
    pattern, applied to what remains of the input; the result is what the
    last continuation returns on the first path that succeeds. *)
Fixpoint m (i : bool) (r : regex) (s : str) (k : str -> option str)
  {struct r} : option str :=
  match r with
  | Empty => k s
  | Char a =>
      match s with
      | c :: s' => if char_match i a c then k s' else None
      | [] => None
      end
  | Class p =>
      match s with
      | c :: s' => if p c then k s' else None
      | [] => None
      end
  | Eoi => match s with [] => k s | _ :: _ => None end
  | Seq r1 r2 => m i r1 s (fun s1 => m i r2 s1 k)
  | Alt r1 r2 => orelse (m i r1 s k) (m i r2 s k)
  | Star greedy r1 => star_loop greedy (m i r1) k (List.length s) s
  | Opt r1 =>
      orelse
        (m i r1 s (fun s1 =>
           if (List.length s1 =? List.length s)%nat then None else k s1))
        (k s)
  end.

(** A compiled expression [^(group1)rest], with or without the [i] flag.
    Every expression of the tokenizer has this shape, and only [matches[1]]
    is ever read. *)
Record RegExp : Type := mkRegExp {
  group1 : regex;
  rest : regex;
  ignoreCase : bool
}.

(** [input.match(regex)], reduced to [matches[1]]: the part of the input
    that group 1 holds on the first successful path. *)
Definition match1 (input : str) (re : RegExp) : option str :=
  match m (ignoreCase re) (group1 re) input
          (fun s1 => m (ignoreCase re) (rest re) s1 (fun _ => Some s1)) with
  | Some s1 => Some (firstn (List.length input - List.length s1) input)
  | None => None
  end.

(** ** Tokens *)

(** Modelled from the spec: the module [xr/sqlFormatter/sqlTokenTypes], which
    the tokenizer imports for its token kinds, is not part of the sources.
    The specification gives a closed enumeration of twelve kinds; the
    constructors carry the names the tokenizer uses for them ([COMMENT],
    [QUOTE] and [BACKTICK_QUOTE] are the specification's LINE_COMMENT,
    QUOTED_STRING and BACKTICK_QUOTED). *)
Inductive sqlTokenTypes : Set :=
| WHITESPACE
| COMMENT
| BLOCK_COMMENT
| QUOTE
| BACKTICK_QUOTE
| VARIABLE
| NUMBER
| BOUNDARY
| RESERVED
| RESERVED_TOPLEVEL
| RESERVED_NEWLINE
| WORD.

(** The object [{type, value}]; [value] is [None] when it is [undefined]. *)
Record Token : Type := mkToken {
  type : sqlTokenTypes;
  value : option str
}.

Definition tok (ty : sqlTokenTypes) (text : string) : Token :=
  mkToken ty (Some (codes text)).

(** ** Construction *)

Record TokenizerConfig : Type := mkConfig {
  reservedWords : list str;
  reservedToplevelWords : list str;
  reservedNewlineWords : list str;
  functionWords : list str
}.

Record SqlTokenizer : Type := mkTokenizer {
  WHITESPACE_REGEX : RegExp;
  LINE_COMMENT_REGEX : RegExp;
  BLOCK_COMMENT_REGEX : RegExp;
  NUMBER_REGEX : RegExp;
  BOUNDARY_REGEX : RegExp;
  FUNCTION_REGEX : RegExp;
  RESERVED_TOPLEVEL_REGEX : RegExp;
  RESERVED_NEWLINE_REGEX : RegExp;
  RESERVED_REGEX : RegExp;
  NON_RESERVED_WORD_REGEX : RegExp;
  STRING_REGEX : RegExp
}.

Definition dquote : N := 34.
Definition squote : N := 39.
Definition backtick : N := 96.
Definition backslash : N := 92.
Definition lbracket : N := 91.
Definition rbracket : N := 93.
Definition newline : N := 10.

Definition chr (s : string) : N :=
  match codes s with a :: _ => a | [] => 0 end.

Definition one_of (s : string) : regex :=
  match codes s with
  | [] => Empty
  | a :: l => alts (Char a) (List.map Char l)
  end.

Definition boundary_chars : string := ",;:)(.=<>+-*/!^%|&#".

(** The group [boundaries]: an alternation of the nineteen punctuation
    characters, in the order of the source. *)
Definition boundaries : regex := one_of boundary_chars.

Definition is_boundary (c : N) : bool := mem c (codes boundary_chars).

Definition is_hex (c : N) : bool :=
  in_range 48 57 c || in_range 97 102 c || in_range 65 70 c.

Definition is_bin (c : N) : bool := in_range 48 49 c.

Definition is_quote (c : N) : bool := mem c [dquote; squote; backtick].

(** The class of the variable pattern: letters, digits, dot, underscore
    and dollar. *)
Definition is_variable_char (c : N) : bool :=
  in_range 97 122 c || in_range 65 90 c || in_range 48 57 c
  || mem c (codes "._$").

Definition any (c : N) : bool := true.
Definition isnt (a c : N) : bool := negb (c =? a).
Definition isnt2 (a b c : N) : bool := negb (c =? a) && negb (c =? b).

(** NUMBER_REGEX.  Group 1 is a decimal (an optional sign part, digits, an
    optional fraction), or [0x] and hex digits, or [0b] and binary digits;
    it must be followed by the end of the input, a space, the three quote
    characters in a row, or a boundary.  The pattern is written in a
    template literal, where the backslash-s of the sign part is the plain
    letter s (the later one, with its backslash doubled, is the class), and
    the three quote characters are not enclosed in brackets. *)
Definition number_regex : RegExp :=
  mkRegExp
    (alts (Seq (Opt (Seq (Char (chr "-")) (Star true (Char (chr "s")))))
               (Seq (Plus (Class is_digit))
                    (Opt (Seq (Char (chr ".")) (Plus (Class is_digit))))))
          [ Seq (Lit (codes "0x")) (Plus (Class is_hex));
            Seq (Lit (codes "0b")) (Plus (Class is_bin)) ])
    (alts Eoi
          [ Class is_space; Lit [dquote; squote; backtick]; boundaries ])
    false.

(** What ends a reserved word: the end of the input, a space or a
    boundary. *)
Definition word_end : regex := alts Eoi [Class is_space; boundaries].

(** What ends the fallback word: the end of the input, a space, a quote
    character or a boundary. *)
Definition word_rest : regex :=
  alts Eoi [Class is_space; Class is_quote; boundaries].

(** A reserved-word expression: group 1 is the joined word list, and
    [word_end] follows it; flag [i]. *)
Definition reserved_regex (words : list str) : RegExp :=
  mkRegExp (join words) word_end true.

(** One segment of the double or single quote style: the quote [q], a run
    of characters other than [q] and the backslash, any number of escapes
    (a backslash, one character matched by the dot, another such run), and
    then [q] or the end of the input. *)
Definition quoted_segment (q : N) : regex :=
  Seq (Char q)
   (Seq (Star true (Class (isnt2 q backslash)))
    (Seq (Star true (Seq (Char backslash)
                     (Seq (Class is_dot) (Star true (Class (isnt2 q backslash))))))
         (Alt (Char q) Eoi))).

(** One bracket or backtick segment: the opening character [o], a run of
    characters other than [c], and then the end of the input or [c]. *)
Definition plain_segment (o c : N) : regex :=
  Seq (Char o) (Seq (Star true (Class (isnt c))) (Alt Eoi (Char c))).

Definition string_regex : RegExp :=
  mkRegExp
    (alts (Plus (plain_segment backtick backtick))
          [ Seq (plain_segment lbracket rbracket)
                (Star true (plain_segment rbracket rbracket));
            Plus (quoted_segment dquote);
            Plus (quoted_segment squote) ])
    Empty
    false.

Definition constructor (cfg : TokenizerConfig) : SqlTokenizer :=
  {| WHITESPACE_REGEX := mkRegExp (Plus (Class is_space)) Empty false;
     LINE_COMMENT_REGEX :=
       mkRegExp (Seq (Alt (Char (chr "#")) (Lit (codes "--")))
                  (Seq (Star false (Class is_dot)) (Alt (Char newline) Eoi)))
                Empty false;
     BLOCK_COMMENT_REGEX :=
       mkRegExp (Seq (Lit (codes "/*"))
                  (Seq (Star false (Class any)) (Alt (Lit (codes "*/")) Eoi)))
                Empty false;
     NUMBER_REGEX := number_regex;
     BOUNDARY_REGEX := mkRegExp boundaries Empty false;
     FUNCTION_REGEX :=
       mkRegExp (join (functionWords cfg)) (Char (chr "(")) true;
     RESERVED_TOPLEVEL_REGEX := reserved_regex (reservedToplevelWords cfg);
     RESERVED_NEWLINE_REGEX := reserved_regex (reservedNewlineWords cfg);
     RESERVED_REGEX := reserved_regex (reservedWords cfg);
     NON_RESERVED_WORD_REGEX :=
       mkRegExp (Star false (Class is_dot)) word_rest false;
     STRING_REGEX := string_regex |}.

(** ** Completions *)

(** [TypeError] is what the engine raises when a property of [undefined] is
    read.  [LexError] and [ConfigError] are the error kinds the
    specification names; no path of the tokenizer raises them, and they are
    here so that statements about them can be written. *)
Inductive error : Set :=
| TypeError
| LexError (offset : nat)
| ConfigError.

Inductive completion (A : Type) : Type :=
| Returned (a : A)
| Thrown (e : error).

Arguments Returned {A} a.
Arguments Thrown {A} e.

(** ** Matchers *)

Section Matchers.

Variable this : SqlTokenizer.

Definition getTokenOnFirstMatch (input : str) (ty : sqlTokenTypes)
    (regex : RegExp) : option Token :=
  match match1 input regex with
  | Some text => Some (mkToken ty (Some text))
  | None => None
  end.

Definition getQuotedString (input : str) : option str :=
  match1 input (STRING_REGEX this).

Definition getWhitespaceToken (input : str) : option Token :=
  getTokenOnFirstMatch input WHITESPACE (WHITESPACE_REGEX this).

Definition getLineCommentToken (input : str) : option Token :=
  getTokenOnFirstMatch input COMMENT (LINE_COMMENT_REGEX this).

Definition getBlockCommentToken (input : str) : option Token :=
  getTokenOnFirstMatch input BLOCK_COMMENT (BLOCK_COMMENT_REGEX this).

Definition getCommentToken (input : str) : option Token :=
  orelse (getLineCommentToken input) (getBlockCommentToken input).

(** The token is built whenever the first character opens a quote; its
    [value] is whatever [getQuotedString] returned. *)
Definition getQuotedStringToken (input : str) : option Token :=
  match input with
  | firstChar :: _ =>
      if mem firstChar [dquote; squote; backtick; lbracket] then
        Some (mkToken
                (if mem firstChar [backtick; lbracket]
                 then BACKTICK_QUOTE else QUOTE)
                (getQuotedString input))
      else None
  | [] => None
  end.

(** String concatenation turns [undefined] into the text "undefined". *)
Definition to_string (v : option str) : str :=
  match v with Some s => s | None => codes "undefined" end.

Definition getVariableToken (input : str) : option Token :=
  match input with
  | c0 :: c1 :: _ =>
      if mem c0 (codes "@:") then
        if mem c1 [dquote; squote; backtick] then
          Some (mkToken VARIABLE
                  (Some (c0 :: to_string (getQuotedString (tl input)))))
        else
          getTokenOnFirstMatch input VARIABLE
            (mkRegExp (Seq (Char c0) (Plus (Class is_variable_char)))
                      Empty false)
      else None
  | _ => None
  end.

Definition getNumberToken (input : str) : option Token :=
  getTokenOnFirstMatch input NUMBER (NUMBER_REGEX this).

Definition getBoundaryCharacterToken (input : str) : option Token :=
  getTokenOnFirstMatch input BOUNDARY (BOUNDARY_REGEX this).

Definition is_dot_token (previousToken : option Token) : bool :=
  match previousToken with
  | Some t =>
      match value t with
      | Some [c] => c =? chr "."
      | _ => false
      end
  | None => false
  end.

Definition getReservedWordToken (input : str) (previousToken : option Token)
    : option Token :=
  if is_dot_token previousToken then None
  else
    match getTokenOnFirstMatch input RESERVED_TOPLEVEL
            (RESERVED_TOPLEVEL_REGEX this) with
    | Some t => Some t
    | None =>
        match getTokenOnFirstMatch input RESERVED_NEWLINE
                (RESERVED_NEWLINE_REGEX this) with
        | Some t => Some t
        | None =>
            getTokenOnFirstMatch input RESERVED (RESERVED_REGEX this)
        end
    end.

Definition getFunctionWordToken (input : str) : option Token :=
  getTokenOnFirstMatch input RESERVED (FUNCTION_REGEX this).

Definition getNonReservedWordToken (input : str) : option Token :=
  getTokenOnFirstMatch input WORD (NON_RESERVED_WORD_REGEX this).

Definition getNextToken (input : str) (previousToken : option Token)
    : option Token :=
  orelse (getWhitespaceToken input)
  (orelse (getCommentToken input)
  (orelse (getQuotedStringToken input)
  (orelse (getVariableToken input)
  (orelse (getNumberToken input)
  (orelse (getBoundaryCharacterToken input)
  (orelse (getReservedWordToken input previousToken)
  (orelse (getFunctionWordToken input)
          (getNonReservedWordToken input)))))))).

(** ** The scan loop *)

(** The [while] loop of [tokenize], one unit of fuel per iteration; [None]
    when the fuel does not reach the end of the loop.  Reading
    [token.value.length] raises the TypeError when the chain returned
    [undefined] or a token whose value is [undefined]; [substring] past the
    end of the input leaves the empty string, as [skipn] does. *)
Fixpoint tokenize_loop (fuel : nat) (input : str) (token : option Token)
    (tokens : list Token) : option (completion (list Token)) :=
  match input with
  | [] => Some (Returned tokens)
  | _ :: _ =>
      match fuel with
      | O => None
      | S fuel' =>
          match getNextToken input token with
          | None => Some (Thrown TypeError)
          | Some t =>
              match value t with
              | None => Some (Thrown TypeError)
              | Some text =>
                  tokenize_loop fuel' (skipn (List.length text) input)
                    (Some t) (tokens ++ [t])
              end
          end
      end
  end.

Definition tokenize_fuel (fuel : nat) (input : str)
    : option (completion (list Token)) :=
  tokenize_loop fuel input None [].

(** No iteration consumes less than one code unit (see
    [tokenize_fuel_enough]), so the length of the input is fuel enough. *)
Definition tokenize (input : str) : option (completion (list Token)) :=
  tokenize_fuel (List.length input) input.

End Matchers.

(** [new SqlTokenizer(cfg)] for a configuration of keyword strings: every
    pattern text the constructor assembles from them is well formed, and
    the constructor has no other failing path. *)
Definition new_SqlTokenizer (cfg : TokenizerConfig)
    : completion SqlTokenizer :=
  Returned (constructor cfg).

(** ** Vocabulary of the statements *)

(** Whether a pattern can match without consuming input. *)
Fixpoint nullable (r : regex) : bool :=
  match r with
  | Empty | Eoi | Star _ _ | Opt _ => true
  | Char _ | Class _ => false
  | Seq r1 r2 => nullable r1 && nullable r2
  | Alt r1 r2 => nullable r1 || nullable r2
  end.

(** [strip i w s]: what is left of [s] after the literal word [w]. *)
Fixpoint strip (i : bool) (w s : str) : option str :=
  match w with
  | [] => Some s
  | a :: w' =>
      match s with
      | c :: s' => if char_match i a c then strip i w' s' else None
      | [] => None
      end
  end.

(** The literal word [w] matches exactly the text [p]. *)
Definition lit_match (i : bool) (w p : str) : bool :=
  match strip i w p with
  | Some [] => true
  | _ => false
  end.

(** [w] is among the keywords [ws], which are case-insensitive. *)
Definition listed (w : str) (ws : list str) : bool :=
  existsb (fun x => lit_match true x w) ws.

(** The characters that are syntax in a pattern. *)
Definition is_syntax_char (c : N) : bool := mem c (codes "\^$.*+?()[]{}|").

(** Keyword lists are spliced into the patterns as pattern text.  The
    embedding reads each word as a literal, which is what the pattern text
    means when the word is made of ASCII characters that are not pattern
    syntax. *)
Definition keyword_char (c : N) : bool :=
  (c <? 128) && negb (is_syntax_char c).

Definition keyword_list (ws : list str) : bool :=
  forallb (forallb keyword_char) ws.

Definition keyword_cfg (cfg : TokenizerConfig) : bool :=
  keyword_list (reservedWords cfg)
  && keyword_list (reservedToplevelWords cfg)
  && keyword_list (reservedNewlineWords cfg)
  && keyword_list (functionWords cfg).

(** [w] is in none of the three reserved-word lists. *)
Definition unreserved (w : str) (cfg : TokenizerConfig) : bool :=
  negb (listed w (reservedWords cfg))
  && negb (listed w (reservedToplevelWords cfg))
  && negb (listed w (reservedNewlineWords cfg)).

(** The text of a token, as string concatenation reads it. *)
Definition text (t : Token) : str := to_string (value t).

Definition concat_texts (tokens : list Token) : str :=
  List.concat (List.map text tokens).

(** A matcher produced a match that consumes input. *)
Definition consumes (r : option Token) : Prop :=
  exists t v, r = Some t /\ value t = Some v /\ v <> [].

Definition is_some {A} (x : option A) : bool :=
  match x with Some _ => true | None => false end.

(** The prefixes of [s] whose remainder satisfies [ok]. *)
Fixpoint prefixes_before (ok : str -> bool) (s : str) : list str :=
  (if ok s then [[]] else [])
  ++ match s with
     | [] => []
     | c :: s' => List.map (cons c) (prefixes_before ok s')
     end.

(** Whether the rest [r] of an expression matches at [s]. *)
Definition rest_matches (i : bool) (r : regex) (s : str) : bool :=
  is_some (m i r s (fun _ => Some s)).

(** The words an alternation offers: an empty list offers the empty
    word. *)
Definition offered (ws : list str) : list str :=
  match ws with [] => [[]] | _ => ws end.

(** The texts a keyword expression with rest [r] could hold in group 1 on
    [input]: the prefixes free of pattern syntax that stand before a place
    where [r] matches. *)
Definition candidates (r : regex) (input : str) : list str :=
  filter (fun p => negb (existsb is_syntax_char p))
         (prefixes_before (rest_matches true r) input).

(** What is left of [s] after its longest prefix of characters in [p]. *)
Fixpoint drop_while (p : N -> bool) (s : str) : str :=
  match s with
  | c :: s' => if p c then drop_while p s' else s
  | [] => []
  end.

(** The token has a text, and it is not empty. *)
Definition has_text (t : Token) : Prop :=
  exists v, value t = Some v /\ v <> [].

(** The results of the nine matchers of the chain on one input. *)
Definition chain (this : SqlTokenizer) (input : str)
    (previousToken : option Token) : list (option Token) :=
  [ getWhitespaceToken this input;
    getCommentToken this input;
    getQuotedStringToken this input;
    getVariableToken this input;
    getNumberToken this input;
    getBoundaryCharacterToken this input;
    getReservedWordToken this input previousToken;
    getFunctionWordToken this input;
    getNonReservedWordToken this input ].

(** No matcher of the chain produces a match that consumes input. *)
Definition no_progress (this : SqlTokenizer) (input : str)
    (previousToken : option Token) : Prop :=
  Forall (fun r => ~ consumes r) (chain this input previousToken).

(** What one call of [getNextToken] can yield: a non-empty prefix of the
    input, or one of the two tokens built from a quoted string that
    [STRING_REGEX] did not match. *)
Inductive step_result (this : SqlTokenizer) (input : str) (t : Token)
  : Prop :=
| step_slice v s' :
    value t = Some v -> v <> [] -> input = v ++ s' ->
    step_result this input t
| step_unmatched_quote c s :
    input = c :: s ->
    mem c [dquote; squote; backtick; lbracket] = true ->
    getQuotedString this input = None ->
    value t = None ->
    step_result this input t
| step_unmatched_variable c0 c1 s :
    input = c0 :: c1 :: s ->
    mem c1 [dquote; squote; backtick] = true ->
    getQuotedString this (c1 :: s) = None ->
    t = mkToken VARIABLE (Some (c0 :: codes "undefined")) ->
    step_result this input t.

(** The four quoting styles of [STRING_REGEX], in the order of its
    alternatives. *)
Inductive quoting : Set := Backticks | Brackets | DoubleQuotes | SingleQuotes.

(** The character that opens the first segment of a quote. *)
Definition opener (st : quoting) : N :=
  match st with
  | Backticks => backtick
  | Brackets => lbracket
  | DoubleQuotes => dquote
  | SingleQuotes => squote
  end.







(** ** Vocabulary of the further properties *)

(** The longest prefix of [s] of characters in [p]. *)
Fixpoint take_while (p : N -> bool) (s : str) : str :=
  match s with
  | c :: s' => if p c then c :: take_while p s' else []
  | [] => []
  end.

(** The characters that end a fallback word. *)
Definition is_word_stop (c : N) : bool :=
  is_space c || is_quote c || is_boundary c.

Definition is_word_char (c : N) : bool := negb (is_word_stop c).

(** A scan that stops at the first place where [k] succeeds and otherwise
    steps over one character of [p]. *)
Fixpoint lazy_scan (p : N -> bool) (k : str -> option str) (s : str)
    : option str :=
  match k s with
  | Some a => Some a
  | None =>
      match s with
      | c :: s' => if p c then lazy_scan p k s' else None
      | [] => None
      end
  end.

(** [s] up to and including its first star-slash, or all of [s] when it
    has none. *)
Fixpoint until_close (s : str) : str :=
  match s with
  | [] => []
  | c :: s' =>
      match s' with
      | d :: _ =>
          if (c =? chr "*") && (d =? chr "/") then [c; d]
          else c :: until_close s'
      | [] => [c]
      end
  end.

(** The text that the first word of [ws] matching at the start of [input],
    before a place where [r] matches, takes from the input. *)
Fixpoint first_word (i : bool) (r : regex) (ws : list str) (input : str)
    : option str :=
  match ws with
  | [] => None
  | w :: ws' =>
      match strip i w input with
      | Some s' =>
          if rest_matches i r s' then Some (firstn (List.length w) input)
          else first_word i r ws' input
      | None => first_word i r ws' input
      end
  end.

(** What follows the body of a line comment: a newline or the end of the
    input. *)
Definition line_end (k : str -> option str) (s : str) : option str :=
  orelse (m false (Char newline) s k) (m false Eoi s k).

(** What follows the body of a block comment: star-slash or the end of the
    input. *)
Definition block_end (k : str -> option str) (s : str) : option str :=
  orelse (m false (Lit (codes "*/")) s k) (m false Eoi s k).

(** The token of kind [ty] with the text [v], when there is a text. *)
Definition token_of (ty : sqlTokenTypes) (v : option str) : option Token :=
  option_map (fun text => mkToken ty (Some text)) v.

(** Inputs on which [STRING_REGEX] matches every quote it is asked about:
    those without a backslash, and those without a double or single
    quote. *)
Definition quotes_match (input : str) : Prop :=
  mem backslash input = false
  \/ (mem dquote input = false /\ mem squote input = false).

(** The closing character of each quoting style, and what has to be absent
    after the opening character for the quote to be unterminated. *)
Definition unterminated (o : N) (s : str) : Prop :=
  (o = dquote /\ mem dquote s = false /\ mem backslash s = false)
  \/ (o = squote /\ mem squote s = false /\ mem backslash s = false)
  \/ (o = backtick /\ mem backtick s = false)
  \/ (o = lbracket /\ mem rbracket s = false).

(** Whether a match of [r] that consumes input can start with [c]. *)
Fixpoint first_ok (i : bool) (r : regex) (c : N) : bool :=
  match r with
  | Empty | Eoi => false
  | Char a => char_match i a c
  | Class p => p c
  | Seq r1 r2 => first_ok i r1 c || (nullable r1 && first_ok i r2 c)
  | Alt r1 r2 => first_ok i r1 c || first_ok i r2 c
  | Star _ r1 | Opt r1 => first_ok i r1 c
  end.

(** The consumed part [p] of [s], when it is not empty, starts with a
    character that [r] allows first. *)
Definition starts_ok (i : bool) (r : regex) (p s : str) : Prop :=
  match p, s with
  | _ :: _, c :: _ => first_ok i r c = true
  | _, _ => True
  end.

(** Each token of the list is what [getNextToken] gave on some non-empty
    input, with the token before it as the previous token. *)
Fixpoint produced (this : SqlTokenizer) (prev : option Token)
    (tokens : list Token) : Prop :=
  match tokens with
  | [] => True
  | t :: more =>
      (exists input, input <> []
                     /\ getNextToken this input prev = Some t
                     /\ value t <> None)
      /\ produced this (Some t) more
  end.

(** In the list, no token of kind RESERVED_TOPLEVEL or RESERVED_NEWLINE
    comes right after a token whose text is a dot. *)
Fixpoint no_layout_word_after_dot (prev : option Token)
    (tokens : list Token) : Prop :=
  match tokens with
  | [] => True
  | t :: more =>
      (is_dot_token prev = true ->
       type t <> RESERVED_TOPLEVEL /\ type t <> RESERVED_NEWLINE)
      /\ no_layout_word_after_dot (Some t) more
  end.

(** [v] is not empty and starts with a character in [p]. *)
Definition head_is (p : N -> bool) (v : str) : bool :=
  match v with c :: _ => p c | [] => false end.

(** What the text of a token of each kind looks like. *)
Definition kind_fits (t : Token) : bool :=
  match value t with
  | None => false
  | Some v =>
      match type t with
      | WHITESPACE => head_is is_space v && forallb is_space v
      | COMMENT => head_is (fun c => mem c (codes "#-")) v
      | BLOCK_COMMENT => head_is (fun c => c =? chr "/") v
      | QUOTE => head_is (fun c => mem c [dquote; squote]) v
      | BACKTICK_QUOTE => head_is (fun c => mem c [backtick; lbracket]) v
      | VARIABLE => head_is (fun c => mem c (codes "@:")) v
      | NUMBER => head_is (fun c => is_digit c || (c =? chr "-")) v
      | BOUNDARY => match v with [c] => is_boundary c | _ => false end
      | WORD => head_is is_word_char v && forallb is_word_char v
      | RESERVED | RESERVED_TOPLEVEL | RESERVED_NEWLINE => head_is any v
      end
  end.

(** The digits and the fraction of a decimal number. *)
Definition digits_part : regex :=
  Seq (Plus (Class is_digit))
      (Opt (Seq (Char (chr ".")) (Plus (Class is_digit)))).

(** What follows group 1 in [NUMBER_REGEX]. *)
Definition number_rest : regex :=
  alts Eoi [Class is_space; Lit [dquote; squote; backtick]; boundaries].

(** What may follow the digits of a number that has no fraction: the end of
    the input, or a space or boundary other than the dot. *)
Definition number_stop (tail : str) : bool :=
  match tail with
  | [] => true
  | c :: _ => (is_space c || is_boundary c) && negb (c =? chr ".")
  end.

(** [a] and [b] are the same text up to the case of the letters a to z. *)
Fixpoint same_letters (a b : str) : bool :=
  match a, b with
  | [], [] => true
  | x :: a', y :: b' =>
      (canonicalize x =? canonicalize y) && same_letters a' b'
  | _, _ => false
  end.

(** The two results are both nothing, or tokens of one kind that take the
    same number of code units from [a] and from [b]. *)
Definition alike (a b : str) (ra rb : option Token) : Prop :=
  (ra = None /\ rb = None)
  \/ exists ty n,
       ra = Some (mkToken ty (Some (firstn n a)))
       /\ rb = Some (mkToken ty (Some (firstn n b))).

(** [t] put in front of the tokens that a scan returns. *)
Definition prepend (t : Token) (r : option (completion (list Token)))
    : option (completion (list Token)) :=
  match r with
  | Some (Returned tokens) => Some (Returned (t :: tokens))
  | _ => r
  end.

(** [acc] put in front of the tokens that a scan returns. *)
Definition shift (acc : list Token) (r : option (completion (list Token)))
    : option (completion (list Token)) :=
  match r with
  | Some (Returned tokens) => Some (Returned (acc ++ tokens))
  | _ => r
  end.

(** The previous token is a WHITESPACE token. *)
Definition is_whitespace_token (prev : option Token) : bool :=
  match prev with
  | Some p => match type p with WHITESPACE => true | _ => false end
  | None => false
  end.

(** In the list, no WHITESPACE token comes right after another one. *)
Fixpoint no_double_whitespace (prev : option Token) (tokens : list Token)
    : Prop :=
  match tokens with
  | [] => True
  | t :: more =>
      (is_whitespace_token prev = true -> type t <> WHITESPACE)
      /\ no_double_whitespace (Some t) more
  end.

(** ** Configurations used as examples *)

Definition sample_cfg : TokenizerConfig :=
  mkConfig [codes "as"; codes "distinct"]
           [codes "select"; codes "from"; codes "group by"]
           [codes "and"; codes "or"]
           [codes "count"].

Definition empty_cfg : TokenizerConfig := mkConfig [] [] [] [].

(** [t] is a reserved word. *)
Definition cfg_reserved_t : TokenizerConfig :=
  mkConfig [codes "t"] [codes "from"] [] [].

(** [x] is a reserved word. *)
Definition cfg_reserved_x : TokenizerConfig :=
  mkConfig [codes "x"] [] [] [codes "count"].

(** The phrase [count x] is a reserved word. *)
Definition cfg_reserved_phrase : TokenizerConfig :=
  mkConfig [codes "count x"] [] [] [codes "count"].

(** [from] is a toplevel word, and the phrase made of [t], a dot, a space
    and [from] is a reserved word.  The dot of the phrase is pattern
    syntax; on the dot of the input it matches as the literal does. *)
Definition cfg_reserved_dotted : TokenizerConfig :=
  mkConfig [codes "t. from"] [codes "from"] [] [].

(** ** The matcher visits suffixes of the input *)

Section MatcherFacts.

Variable i : bool.

Lemma orelse_Some {A} (x y : option A) (a : A) :
  orelse x y = Some a -> x = Some a \/ (x = None /\ y = Some a).
Proof. destruct x; simpl; intros H; [left | right]; auto. Qed.

Lemma star_loop_inv greedy body k :
  (forall s k' a, body s k' = Some a ->
     exists p s', s = p ++ s' /\ k' s' = Some a) ->
  forall n s a, star_loop greedy body k n s = Some a ->
    exists p s', s = p ++ s' /\ k s' = Some a.
Proof.
  intros Hbody n; induction n as [|n IH]; intros s a H; simpl in H.
  - exists [], s; auto.
  - assert (Hiter : forall b,
      body s (fun s1 => if (List.length s1 =? List.length s)%nat then None
                        else star_loop greedy body k n s1) = Some b ->
      exists p s', s = p ++ s' /\ k s' = Some b).
    { intros b Hb. apply Hbody in Hb. destruct Hb as (p1 & s1 & -> & Hk).
      destruct (_ =? _)%nat; [discriminate|].
      apply IH in Hk. destruct Hk as (p2 & s2 & -> & Hk).
      exists (p1 ++ p2), s2. rewrite <- app_assoc. auto. }
    destruct greedy; apply orelse_Some in H;
      destruct H as [H | [_ H]]; auto; exists [], s; auto.
Qed.

Lemma m_inv r : forall s k a, m i r s k = Some a ->
  exists p s', s = p ++ s' /\ (nullable r = false -> p <> []) /\ k s' = Some a.
Proof.
  induction r as [ | c | p | | r1 IH1 r2 IH2 | r1 IH1 r2 IH2 | g r IH | r IH ];
    intros s k a H; simpl in H.
  - exists [], s; simpl; split; [reflexivity | split; [discriminate | exact H]].
  - destruct s as [|c0 s]; [discriminate|].
    destruct (char_match i c c0); [|discriminate].
    exists [c0], s; split; [reflexivity | split; [discriminate | exact H]].
  - destruct s as [|c0 s]; [discriminate|].
    destruct (p c0); [|discriminate].
    exists [c0], s; split; [reflexivity | split; [discriminate | exact H]].
  - destruct s; [|discriminate].
    exists [], []; simpl; split; [reflexivity | split; [discriminate | exact H]].
  - apply IH1 in H. destruct H as (p1 & s1 & -> & N1 & H).
    apply IH2 in H. destruct H as (p2 & s2 & -> & N2 & H).
    exists (p1 ++ p2), s2. rewrite <- app_assoc.
    split; [reflexivity | split; [| exact H]].
    simpl. intros N E. apply app_eq_nil in E. destruct E as [E1 E2].
    apply andb_false_iff in N. destruct N as [N | N]; [exact (N1 N E1) | exact (N2 N E2)].
  - apply orelse_Some in H. destruct H as [H | [_ H]].
    + apply IH1 in H. destruct H as (p1 & s1 & -> & N1 & H).
      exists p1, s1; split; [reflexivity | split; [| exact H]].
      simpl; intros N. apply orb_false_iff in N. tauto.
    + apply IH2 in H. destruct H as (p1 & s1 & -> & N1 & H).
      exists p1, s1; split; [reflexivity | split; [| exact H]].
      simpl; intros N. apply orb_false_iff in N. tauto.
  - apply star_loop_inv in H.
    + destruct H as (p & s' & -> & H).
      exists p, s'; simpl; split; [reflexivity | split; [discriminate | exact H]].
    + intros s0 k' b Hb. apply IH in Hb.
      destruct Hb as (p & s' & -> & _ & Hb). eauto.
  - apply orelse_Some in H. destruct H as [H | [_ H]].
    + apply IH in H. destruct H as (p & s' & -> & _ & H).
      destruct (_ =? _)%nat; [discriminate|].
      exists p, s'; simpl; split; [reflexivity | split; [discriminate | exact H]].
    + exists [], s; simpl; split; [reflexivity | split; [discriminate | exact H]].
Qed.

End MatcherFacts.

Lemma firstn_app_minus (p s : str) :
  firstn (List.length (p ++ s) - List.length s) (p ++ s) = p.
Proof.
  rewrite length_app, Nat.add_sub.
  rewrite firstn_app, Nat.sub_diag, firstn_all. simpl. apply app_nil_r.
Qed.

(** [matches[1]] is a prefix of the input, followed by a place where the
    rest of the pattern matches; it is not empty when group 1 cannot match
    the empty string. *)
Lemma match1_inv input re v :
  match1 input re = Some v ->
  exists s', input = v ++ s'
    /\ (nullable (group1 re) = false -> v <> [])
    /\ rest_matches (ignoreCase re) (rest re) s' = true.
Proof.
  unfold match1. intros H.
  destruct (m _ (group1 re) _ _) as [a|] eqn:E; [|discriminate].
  injection H as <-.
  apply m_inv in E. destruct E as (p & s' & -> & N & E).
  assert (a = s') as ->.
  { apply m_inv in E. destruct E as (_ & _ & _ & _ & E). congruence. }
  rewrite firstn_app_minus. exists s'. split; [reflexivity|].
  split; [exact N|]. unfold rest_matches. rewrite E. reflexivity.
Qed.

(** ** Literal words and alternations *)

Lemma m_Lit i w : forall s k,
  m i (Lit w) s k = match strip i w s with Some s' => k s' | None => None end.
Proof.
  induction w as [|a w IH]; intros s k; simpl; [reflexivity|].
  destruct s as [|c s]; [reflexivity|].
  destruct (char_match i a c); [apply IH | reflexivity].
Qed.

Lemma strip_inv i w : forall s s', strip i w s = Some s' ->
  exists p, s = p ++ s' /\ lit_match i w p = true.
Proof.
  unfold lit_match.
  induction w as [|a w IH]; intros s s' H; simpl in H.
  - injection H as <-. exists []; auto.
  - destruct s as [|c s]; [discriminate|].
    destruct (char_match i a c) eqn:E; [|discriminate].
    apply IH in H. destruct H as (p & -> & H).
    exists (c :: p); split; [reflexivity|]. simpl. rewrite E. exact H.
Qed.

Lemma lit_match_strip i w : forall p s',
  lit_match i w p = true -> strip i w (p ++ s') = Some s'.
Proof.
  unfold lit_match.
  induction w as [|a w IH]; intros p s' H; simpl in *.
  - destruct p; [reflexivity | discriminate].
  - destruct p as [|c p]; [discriminate|]. simpl.
    destruct (char_match i a c); [apply IH; exact H | discriminate].
Qed.

Lemma m_alts_inv i rs : forall r s k a,
  m i (alts r rs) s k = Some a ->
  exists r', In r' (r :: rs) /\ m i r' s k = Some a.
Proof.
  induction rs as [|r1 rs IH]; intros r s k a H; simpl in H.
  - exists r; simpl; auto.
  - apply orelse_Some in H. destruct H as [H | [_ H]].
    + exists r; simpl; auto.
    + apply IH in H. destruct H as (r' & I & H). exists r'; simpl; auto.
Qed.

Lemma m_alts_complete i rs : forall r r' s k,
  In r' (r :: rs) -> m i r' s k <> None -> m i (alts r rs) s k <> None.
Proof.
  induction rs as [|r1 rs IH]; intros r r' s k I H; simpl.
  - destruct I as [<- | []]. exact H.
  - destruct (m i r s k) eqn:E; simpl; [discriminate|].
    destruct I as [<- | I]; [congruence|]. apply (IH r1 r'); assumption.
Qed.

Lemma m_join_inv i ws s k a :
  m i (join ws) s k = Some a ->
  exists w s', In w (offered ws) /\ strip i w s = Some s' /\ k s' = Some a.
Proof.
  destruct ws as [|w0 ws]; simpl; intros H.
  - exists [], s; simpl; auto.
  - apply m_alts_inv in H. destruct H as (r' & I & H).
    change (Lit w0 :: List.map Lit ws) with (List.map Lit (w0 :: ws)) in I.
    apply in_map_iff in I. destruct I as (w & <- & I).
    rewrite m_Lit in H. destruct (strip i w s) as [s'|] eqn:E; [|discriminate].
    exists w, s'; auto.
Qed.

Lemma m_join_complete i ws w s s' k :
  In w ws -> strip i w s = Some s' -> k s' <> None ->
  m i (join ws) s k <> None.
Proof.
  destruct ws as [|w0 ws]; intros I E H; [destruct I|]. simpl.
  apply (m_alts_complete i _ _ (Lit w)).
  - change (Lit w0 :: List.map Lit ws) with (List.map Lit (w0 :: ws)).
    apply in_map. exact I.
  - rewrite m_Lit, E. exact H.
Qed.

Lemma prefixes_before_In ok v : forall s s',
  s = v ++ s' -> ok s' = true -> In v (prefixes_before ok s).
Proof.
  induction v as [|c v IH]; intros s s' -> H; simpl.
  - destruct s'; simpl; rewrite H; simpl; auto.
  - apply in_or_app. right. apply in_map. apply (IH _ s'); auto.
Qed.

Lemma prefixes_before_inv ok v : forall s,
  In v (prefixes_before ok s) -> exists s', s = v ++ s' /\ ok s' = true.
Proof.
  induction v as [|c v IH]; intros s I; simpl in I.
  - exists s; split; [reflexivity|].
    destruct s as [|c s]; apply in_app_or in I; destruct I as [I | I].
    + destruct (ok []); [reflexivity | destruct I].
    + destruct I.
    + destruct (ok (c :: s)); [reflexivity | destruct I].
    + apply in_map_iff in I. destruct I as (x & E & _). discriminate E.
  - destruct s as [|c0 s]; apply in_app_or in I; destruct I as [I | I].
    + destruct (ok []); [destruct I as [I | []]; discriminate I | destruct I].
    + destruct I.
    + destruct (ok (c0 :: s)); [destruct I as [I | []]; discriminate I | destruct I].
    + apply in_map_iff in I. destruct I as (x & E & I).
      injection E as -> ->. apply IH in I. destruct I as (s' & -> & H).
      exists s'; auto.
Qed.

(** What a keyword expression can hold in group 1: a prefix of the input
    that one of the offered words matches, before a place where the rest of
    the expression matches. *)
Lemma keyword_match_inv ws r i input v :
  match1 input (mkRegExp (join ws) r i) = Some v ->
  In v (prefixes_before (rest_matches i r) input)
  /\ exists w, In w (offered ws) /\ lit_match i w v = true.
Proof.
  intros H. unfold match1 in H. simpl in H.
  destruct (m i (join ws) input _) as [a|] eqn:E; [|discriminate].
  injection H as <-.
  apply m_join_inv in E. destruct E as (w & s' & I & S & K).
  assert (a = s') as ->.
  { apply m_inv in K. destruct K as (_ & _ & _ & _ & K). congruence. }
  apply strip_inv in S. destruct S as (p & -> & L).
  rewrite firstn_app_minus. split.
  - apply (prefixes_before_In _ _ _ s'); [reflexivity|].
    unfold rest_matches. rewrite K. reflexivity.
  - exists w; auto.
Qed.

(** A listed keyword standing before a place where the rest of the
    expression matches makes the expression match. *)
Lemma keyword_match_listed ws r w input s' :
  listed w ws = true ->
  input = w ++ s' ->
  rest_matches true r s' = true ->
  match1 input (mkRegExp (join ws) r true) <> None.
Proof.
  unfold listed, rest_matches, match1; simpl. intros L -> R.
  apply existsb_exists in L. destruct L as (x & I & L).
  destruct (m true (join ws) _ _) eqn:E; [discriminate|].
  exfalso. revert E.
  apply (m_join_complete true ws x _ s'); auto.
  - apply lit_match_strip. exact L.
  - destruct (m true r s' _); [discriminate | discriminate R].
Qed.

(** ** Keyword characters *)

Lemma syntax_char_canonical c :
  is_syntax_char c = true -> canonicalize c = c.
Proof.
  unfold is_syntax_char, mem. intros S. apply existsb_exists in S.
  destruct S as (x & I & E). apply N.eqb_eq in E. subst x.
  simpl in I.
  repeat (destruct I as [I | I]; [subst c; reflexivity|]).
  destruct I.
Qed.

Lemma keyword_char_match a c :
  keyword_char a = true -> char_match true a c = true ->
  is_syntax_char c = false.
Proof.
  unfold keyword_char, char_match. intros K H.
  apply andb_true_iff in K. destruct K as [K1 K2].
  apply negb_true_iff in K2. apply N.eqb_eq in H.
  destruct (is_syntax_char c) eqn:S; [exfalso | reflexivity].
  rewrite (syntax_char_canonical c S) in H.
  unfold canonicalize in H.
  destruct (in_range 97 122 a) eqn:R.
  - unfold in_range in R. apply andb_true_iff in R. destruct R as [R1 R2].
    apply N.leb_le in R1, R2.
    unfold is_syntax_char, mem in S. apply existsb_exists in S.
    destruct S as (x & I & E). apply N.eqb_eq in E. subst x.
    simpl in I.
    repeat (destruct I as [I | I]; [lia|]).
    exact I.
  - subst c. congruence.
Qed.

Lemma keyword_lit_match w : forall v,
  forallb keyword_char w = true -> lit_match true w v = true ->
  existsb is_syntax_char v = false.
Proof.
  unfold lit_match.
  induction w as [|a w IH]; intros v K H; cbn [strip forallb] in *.
  - destruct v; [reflexivity | discriminate].
  - destruct v as [|c v]; [discriminate|].
    apply andb_true_iff in K. destruct K as [Ka K].
    destruct (char_match true a c) eqn:E; [|discriminate H].
    cbn [existsb]. rewrite (keyword_char_match a c Ka E). simpl. apply IH; assumption.
Qed.

Lemma keyword_list_In ws w :
  keyword_list ws = true -> In w ws -> forallb keyword_char w = true.
Proof.
  unfold keyword_list. intros K I.
  rewrite forallb_forall in K. apply K. exact I.
Qed.

Lemma lit_match_nil i v : lit_match i [] v = true -> v = [].
Proof. unfold lit_match; simpl. destruct v; [reflexivity | discriminate]. Qed.

(** ** One iteration of the scan loop *)

Lemma tokenize_loop_step this fuel input prev acc t v input' :
  input <> [] ->
  getNextToken this input prev = Some t ->
  value t = Some v ->
  skipn (List.length v) input = input' ->
  tokenize_loop this (S fuel) input prev acc
  = tokenize_loop this fuel input' (Some t) (acc ++ [t]).
Proof.
  intros N G V <-. destruct input as [|c s]; [contradiction|].
  simpl. rewrite G, V. reflexivity.
Qed.

(** ** Keyword expressions on a given input *)

Lemma keyword_match_candidates ws r input v :
  keyword_list ws = true ->
  match1 input (mkRegExp (join ws) r true) = Some v ->
  In v (candidates r input) /\ (v = [] \/ listed v ws = true).
Proof.
  intros K H. apply keyword_match_inv in H.
  destruct H as (P & w & I & L).
  assert (Kw : forallb keyword_char w = true).
  { destruct ws as [|w0 ws].
    - destruct I as [<- | []]. reflexivity.
    - apply (keyword_list_In (w0 :: ws)); assumption. }
  split.
  - unfold candidates. apply filter_In. split; [exact P|].
    rewrite (keyword_lit_match w v Kw L). reflexivity.
  - destruct ws as [|w0 ws].
    + destruct I as [<- | []]. left. apply (lit_match_nil true). exact L.
    + right. unfold listed. apply existsb_exists. exists w; auto.
Qed.

Lemma keyword_match_none ws r input :
  keyword_list ws = true ->
  (forall v, In v (candidates r input) -> v <> [] /\ listed v ws = false) ->
  match1 input (mkRegExp (join ws) r true) = None.
Proof.
  intros K H.
  destruct (match1 _ _) as [v|] eqn:E; [exfalso | reflexivity].
  apply keyword_match_candidates in E; [|exact K].
  destruct E as (I & [E | E]); apply H in I; destruct I as [I1 I2];
    congruence.
Qed.

Lemma keyword_match_some ws r input v :
  keyword_list ws = true ->
  candidates r input = [v] -> v <> [] -> listed v ws = true ->
  match1 input (mkRegExp (join ws) r true) = Some v.
Proof.
  intros K C N L.
  assert (I : In v (prefixes_before (rest_matches true r) input)).
  { assert (I : In v (candidates r input)) by (rewrite C; simpl; auto).
    unfold candidates in I. apply filter_In in I. tauto. }
  apply prefixes_before_inv in I. destruct I as (s' & E & R).
  destruct (match1 _ _) as [v'|] eqn:M.
  - apply keyword_match_candidates in M; [|exact K].
    destruct M as (I & _). rewrite C in I.
    destruct I as [<- | []]. reflexivity.
  - exfalso. revert M. apply (keyword_match_listed ws r v input s'); auto.
Qed.

(** ** The keyword matchers on a given input *)

Section KeywordMatchers.

Variable cfg : TokenizerConfig.
Hypothesis Hcfg : keyword_cfg cfg = true.

Lemma keyword_cfg_lists :
  keyword_list (reservedWords cfg) = true
  /\ keyword_list (reservedToplevelWords cfg) = true
  /\ keyword_list (reservedNewlineWords cfg) = true
  /\ keyword_list (functionWords cfg) = true.
Proof.
  unfold keyword_cfg in Hcfg.
  repeat (apply andb_true_iff in Hcfg; destruct Hcfg as [Hcfg ?]).
  auto.
Qed.

Lemma reserved_none input prev :
  (forall v, In v (candidates word_end input) ->
     v <> [] /\ unreserved v cfg = true) ->
  getReservedWordToken (constructor cfg) input prev = None.
Proof.
  intros H. destruct keyword_cfg_lists as (K1 & K2 & K3 & _).
  unfold getReservedWordToken, getTokenOnFirstMatch.
  destruct (is_dot_token prev); [reflexivity|].
  simpl. unfold reserved_regex.
  rewrite !keyword_match_none; auto;
    intros v I; apply H in I; destruct I as [N U]; split; auto;
    unfold unreserved in U;
    repeat (apply andb_true_iff in U; destruct U as [U ?]);
    apply negb_true_iff; assumption.
Qed.

Lemma reserved_toplevel_some input prev v :
  is_dot_token prev = false ->
  candidates word_end input = [v] -> v <> [] ->
  listed v (reservedToplevelWords cfg) = true ->
  getReservedWordToken (constructor cfg) input prev
  = Some (mkToken RESERVED_TOPLEVEL (Some v)).
Proof.
  intros D C N L. destruct keyword_cfg_lists as (_ & K2 & _ & _).
  unfold getReservedWordToken, getTokenOnFirstMatch. rewrite D.
  simpl. unfold reserved_regex.
  rewrite (keyword_match_some _ _ _ v); auto.
Qed.

Lemma function_none input :
  (forall v, In v (candidates (Char (chr "(")) input) ->
     v <> [] /\ listed v (functionWords cfg) = false) ->
  getFunctionWordToken (constructor cfg) input = None.
Proof.
  intros H. destruct keyword_cfg_lists as (_ & _ & _ & K4).
  unfold getFunctionWordToken, getTokenOnFirstMatch. simpl.
  rewrite keyword_match_none; auto.
Qed.

Lemma function_some input v :
  candidates (Char (chr "(")) input = [v] -> v <> [] ->
  listed v (functionWords cfg) = true ->
  getFunctionWordToken (constructor cfg) input
  = Some (mkToken RESERVED (Some v)).
Proof.
  intros C N L. destruct keyword_cfg_lists as (_ & _ & _ & K4).
  unfold getFunctionWordToken, getTokenOnFirstMatch. simpl.
  rewrite (keyword_match_some _ _ _ v); auto.
Qed.

End KeywordMatchers.

Ltac no_candidate :=
  let v := fresh "v" in let I := fresh "I" in
  intros v I; vm_compute in I;
  repeat (destruct I as [I | I];
          [subst v; split; [discriminate | assumption]|]);
  destruct I.

(** ** First characters *)

Lemma m_chars i l : forall a c s k,
  m i (alts (Char a) (List.map Char l)) (c :: s) k
  = if existsb (fun x => char_match i x c) (a :: l) then k s else None.
Proof.
  induction l as [|b l IH]; intros a c s k.
  - simpl. rewrite orb_false_r. reflexivity.
  - change (m i (alts (Char a) (List.map Char (b :: l))) (c :: s) k)
      with (orelse (if char_match i a c then k s else None)
                   (m i (alts (Char b) (List.map Char l)) (c :: s) k)).
    rewrite IH. cbn [existsb].
    destruct (char_match i a c); simpl; [|reflexivity].
    destruct (k s); simpl; [reflexivity|].
    destruct (_ || _); reflexivity.
Qed.

Lemma char_match_nonletter a c :
  in_range 97 122 a = false -> in_range 65 90 a = false ->
  char_match true a c = (c =? a).
Proof.
  unfold char_match, canonicalize. intros L U. rewrite L.
  unfold in_range in *.
  destruct (N.eqb_spec c a) as [-> | N].
  - rewrite L. apply N.eqb_refl.
  - apply N.eqb_neq.
    apply andb_false_iff in U.
    destruct ((97 <=? c) && (c <=? 122)) eqn:R; [|congruence].
    apply andb_true_iff in R. destruct R as [R1 R2].
    apply N.leb_le in R1, R2.
    destruct U as [U | U]; apply N.leb_gt in U; lia.
Qed.

Lemma char_match_false a c : char_match false a c = (c =? a).
Proof. apply N.eqb_sym. Qed.

Lemma existsb_agree {A} (f g : A -> bool) l :
  (forall x, In x l -> f x = g x) -> existsb f l = existsb g l.
Proof.
  induction l as [|x l IH]; intros H; simpl; [reflexivity|].
  rewrite (H x), IH; [reflexivity | | left; reflexivity].
  intros y I. apply H. right. exact I.
Qed.

Lemma boundary_chars_match i c :
  existsb (fun x => char_match i x c) (codes boundary_chars)
  = mem c (codes boundary_chars).
Proof.
  unfold mem. apply existsb_agree. intros x I. destruct i.
  - vm_compute in I.
    repeat (destruct I as [I | I];
            [subst x; apply char_match_nonletter; reflexivity|]).
    destruct I.
  - apply char_match_false.
Qed.

Lemma m_boundaries i c s k :
  m i boundaries (c :: s) k
  = if mem c (codes boundary_chars) then k s else None.
Proof.
  rewrite <- (boundary_chars_match i).
  exact (m_chars i _ _ c s k).
Qed.

(** [word_end] matches before a character only if it is a space or a
    boundary. *)
Lemma word_end_first i c s :
  rest_matches i word_end (c :: s) = true ->
  is_space c || is_boundary c = true.
Proof.
  unfold rest_matches, word_end.
  change (m i (alts Eoi [Class is_space; boundaries]) (c :: s)
            (fun _ => Some (c :: s)))
    with (orelse (if is_space c then Some (c :: s) else None)
                 (m i boundaries (c :: s) (fun _ => Some (c :: s)))).
  rewrite m_boundaries. fold (is_boundary c).
  destruct (is_space c), (is_boundary c); simpl; auto.
Qed.

Lemma word_rest_first c s :
  rest_matches false word_rest (c :: s)
  = is_space c || is_quote c || is_boundary c.
Proof.
  unfold rest_matches, word_rest.
  change (m false (alts Eoi [Class is_space; Class is_quote; boundaries])
            (c :: s) (fun _ => Some (c :: s)))
    with (orelse (if is_space c then Some (c :: s) else None)
          (orelse (if is_quote c then Some (c :: s) else None)
                 (m false boundaries (c :: s) (fun _ => Some (c :: s))))).
  rewrite m_boundaries. fold (is_boundary c).
  destruct (is_space c), (is_quote c), (is_boundary c); reflexivity.
Qed.

Lemma line_terminator_is_space c : is_dot c = false -> is_space c = true.
Proof.
  unfold is_dot, mem. intros H. apply negb_false_iff in H.
  apply existsb_exists in H. destruct H as (x & I & E).
  apply N.eqb_eq in E. subst x. simpl in I.
  repeat (destruct I as [I | I]; [subst c; reflexivity|]).
  destruct I.
Qed.

(** ** Repetitions that cannot fail *)

Lemma star_loop_skip greedy body k n s :
  k s <> None -> star_loop greedy body k n s <> None.
Proof.
  intros H. destruct n; simpl; [exact H|].
  destruct greedy.
  - destruct (body s _); simpl; [discriminate | exact H].
  - destruct (k s); simpl; [discriminate | contradiction].
Qed.

Lemma m_Char i a c s k :
  m i (Char a) (c :: s) k = if char_match i a c then k s else None.
Proof. reflexivity. Qed.

Lemma m_Class i p c s k :
  m i (Class p) (c :: s) k = if p c then k s else None.
Proof. reflexivity. Qed.

Lemma m_Seq_Char i a r s k :
  m i (Seq (Char a) r) s k
  = match s with
    | c :: s' => if char_match i a c then m i r s' k else None
    | [] => None
    end.
Proof. destruct s; reflexivity. Qed.

Lemma length_tail_neq {A} (c : A) s :
  (List.length s =? List.length (c :: s))%nat = false.
Proof. apply Nat.eqb_neq. simpl. lia. Qed.

Lemma star_class_complete i p k : forall s n,
  (List.length s <= n)%nat ->
  k (drop_while p s) <> None ->
  star_loop true (m i (Class p)) k n s <> None.
Proof.
  induction s as [|c s IH]; intros n L H.
  - apply star_loop_skip. exact H.
  - destruct n as [|n]; [simpl in L; lia|].
    simpl in H. cbn [star_loop]. rewrite m_Class.
    destruct (p c) eqn:P.
    + rewrite length_tail_neq.
      assert (R : star_loop true (m i (Class p)) k n s <> None).
      { apply IH; [simpl in L; lia | exact H]. }
      destruct (star_loop true (m i (Class p)) k n s); simpl;
        [discriminate | contradiction].
    + simpl. exact H.
Qed.

(** The lazy run of the fallback word always finds its end. *)
Lemma lazy_dot_total : forall s n,
  (List.length s <= n)%nat ->
  star_loop false (m false (Class is_dot))
    (fun s1 => m false word_rest s1 (fun _ => Some s1)) n s <> None.
Proof.
  induction s as [|c s IH]; intros n L.
  - apply star_loop_skip. vm_compute. discriminate.
  - destruct n as [|n]; [simpl in L; lia|].
    cbn [star_loop]. cbv beta.
    match goal with |- orelse ?x _ <> None => destruct x eqn:K end;
      cbn [orelse]; [discriminate|].
    assert (D : is_dot c = true).
    { destruct (is_dot c) eqn:D; [reflexivity|].
      apply line_terminator_is_space in D.
      pose proof (word_rest_first c s) as W.
      unfold rest_matches in W. rewrite K, D in W. discriminate W. }
    rewrite m_Class, D, length_tail_neq.
    apply IH. simpl in L; lia.
Qed.

(** ** Every matcher yields a slice of the input *)

Lemma first_match_slice this input ty re t :
  nullable (group1 re) = false ->
  getTokenOnFirstMatch input ty re = Some t ->
  step_result this input t.
Proof.
  unfold getTokenOnFirstMatch. intros N H.
  destruct (match1 input re) as [v|] eqn:E; [|discriminate].
  injection H as <-.
  apply match1_inv in E. destruct E as (s' & -> & NE & _).
  apply (step_slice _ _ _ v s'); auto.
Qed.

(** The same for a keyword expression, whose group 1 may be empty: the
    rest of the expression then has to match at the start of the input. *)
Lemma first_match_slice_or_rest this input ty re t :
  rest_matches (ignoreCase re) (rest re) input = false ->
  getTokenOnFirstMatch input ty re = Some t ->
  step_result this input t.
Proof.
  unfold getTokenOnFirstMatch. intros R H.
  destruct (match1 input re) as [v|] eqn:E; [|discriminate].
  injection H as <-.
  apply match1_inv in E. destruct E as (s' & -> & _ & M).
  apply (step_slice _ _ _ v s'); auto.
  intros ->. change ([] ++ s') with s' in R. congruence.
Qed.

Section Progress.

Variable cfg : TokenizerConfig.
Let this := constructor cfg.

Lemma whitespace_None c s :
  getWhitespaceToken this (c :: s) = None -> is_space c = false.
Proof.
  intros H. destruct (is_space c) eqn:W; [exfalso | reflexivity].
  revert H. unfold getWhitespaceToken, getTokenOnFirstMatch, match1. simpl.
  rewrite W.
  match goal with |- context [star_loop ?g ?b ?k ?n ?x] =>
    pose proof (star_loop_skip g b k n x) as T;
    destruct (star_loop g b k n x) end.
  - discriminate.
  - exfalso. apply T; [discriminate | reflexivity].
Qed.

Lemma boundary_None c s :
  getBoundaryCharacterToken this (c :: s) = None -> is_boundary c = false.
Proof.
  unfold getBoundaryCharacterToken, getTokenOnFirstMatch, match1.
  change (group1 (BOUNDARY_REGEX this)) with boundaries.
  rewrite m_boundaries. fold (is_boundary c).
  destruct (is_boundary c); [discriminate | reflexivity].
Qed.

Lemma reserved_slice c s prev t :
  is_space c = false -> is_boundary c = false ->
  getReservedWordToken this (c :: s) prev = Some t ->
  step_result this (c :: s) t.
Proof.
  intros W B. unfold getReservedWordToken.
  assert (R : rest_matches true word_end (c :: s) = false).
  { destruct (rest_matches true word_end (c :: s)) eqn:R; [|reflexivity].
    apply word_end_first in R. rewrite W, B in R. discriminate R. }
  destruct (is_dot_token prev); [discriminate|].
  destruct (getTokenOnFirstMatch _ RESERVED_TOPLEVEL _) eqn:E1.
  { intros H; injection H as <-.
    revert E1. apply first_match_slice_or_rest. exact R. }
  destruct (getTokenOnFirstMatch _ RESERVED_NEWLINE _) eqn:E2.
  { intros H; injection H as <-.
    revert E2. apply first_match_slice_or_rest. exact R. }
  apply first_match_slice_or_rest. exact R.
Qed.

Lemma function_slice c s t :
  is_boundary c = false ->
  getFunctionWordToken this (c :: s) = Some t ->
  step_result this (c :: s) t.
Proof.
  intros B. unfold getFunctionWordToken.
  apply first_match_slice_or_rest.
  change (rest_matches true (Char (chr "(")) (c :: s) = false).
  unfold rest_matches. rewrite m_Char.
  destruct (char_match true (chr "(") c) eqn:E; [|reflexivity].
  rewrite char_match_nonletter in E by reflexivity.
  apply N.eqb_eq in E. subst c. discriminate B.
Qed.

Lemma word_total c s :
  is_space c = false -> is_quote c = false -> is_boundary c = false ->
  exists t, getNonReservedWordToken this (c :: s) = Some t
            /\ step_result this (c :: s) t.
Proof.
  intros W Q B.
  assert (R : rest_matches false word_rest (c :: s) = false).
  { rewrite word_rest_first, W, Q, B. reflexivity. }
  destruct (getNonReservedWordToken this (c :: s)) as [t|] eqn:E.
  - exists t. split; [reflexivity|]. revert E.
    apply first_match_slice_or_rest. exact R.
  - exfalso. revert E.
    unfold getNonReservedWordToken, getTokenOnFirstMatch, match1.
    change (m (ignoreCase (NON_RESERVED_WORD_REGEX this))
              (group1 (NON_RESERVED_WORD_REGEX this)) (c :: s)
              (fun s1 => m (ignoreCase (NON_RESERVED_WORD_REGEX this))
                           (rest (NON_RESERVED_WORD_REGEX this)) s1
                           (fun _ => Some s1)))
      with (star_loop false (m false (Class is_dot))
              (fun s1 => m false word_rest s1 (fun _ => Some s1))
              (List.length (c :: s)) (c :: s)).
    pose proof (lazy_dot_total (c :: s) _ (Nat.le_refl _)) as T.
    destruct (star_loop _ _ _ _ _); [discriminate | contradiction].
Qed.

Lemma quoted_slice input t :
  getQuotedStringToken this input = Some t -> step_result this input t.
Proof.
  unfold getQuotedStringToken. destruct input as [|c s]; [discriminate|].
  destruct (mem c _) eqn:Q; [|discriminate].
  intros H; injection H as <-.
  destruct (getQuotedString this (c :: s)) as [v|] eqn:E.
  - unfold getQuotedString in E. apply match1_inv in E.
    destruct E as (s' & E & N & _).
    apply (step_slice _ _ _ v s'); simpl; auto.
  - apply (step_unmatched_quote _ _ _ c s); simpl; auto.
Qed.

Lemma variable_slice input t :
  getVariableToken this input = Some t -> step_result this input t.
Proof.
  unfold getVariableToken. destruct input as [|c0 [|c1 s]]; try discriminate.
  destruct (mem c0 _); [|discriminate].
  destruct (mem c1 _) eqn:Q.
  - intros H; injection H as <-. simpl tl.
    destruct (getQuotedString this (c1 :: s)) as [q|] eqn:E.
    + unfold getQuotedString in E. apply match1_inv in E.
      destruct E as (s' & E & _ & _).
      apply (step_slice _ _ _ (c0 :: q) s'); simpl;
        [reflexivity | discriminate | rewrite E; reflexivity].
    + apply (step_unmatched_variable _ _ _ c0 c1 s); auto.
  - apply first_match_slice. reflexivity.
Qed.

(** On a non-empty input the chain always yields a token. *)
Lemma getNextToken_step input prev :
  input <> [] ->
  exists t, getNextToken this input prev = Some t
            /\ step_result this input t.
Proof.
  intros NE. destruct input as [|c s]; [contradiction|].
  unfold getNextToken.
  destruct (getWhitespaceToken this (c :: s)) as [t|] eqn:E1.
  { exists t; split; [reflexivity|]. revert E1.
    apply first_match_slice. reflexivity. }
  apply whitespace_None in E1.
  destruct (getCommentToken this (c :: s)) as [t|] eqn:E2.
  { exists t; split; [reflexivity|]. revert E2. unfold getCommentToken.
    destruct (getLineCommentToken this (c :: s)) as [t'|] eqn:E.
    - intros H; injection H as <-. revert E.
      apply first_match_slice. reflexivity.
    - apply first_match_slice. reflexivity. }
  destruct (getQuotedStringToken this (c :: s)) as [t|] eqn:E3.
  { exists t; split; [reflexivity|]. apply quoted_slice. exact E3. }
  destruct (getVariableToken this (c :: s)) as [t|] eqn:E4.
  { exists t; split; [reflexivity|]. apply variable_slice. exact E4. }
  destruct (getNumberToken this (c :: s)) as [t|] eqn:E5.
  { exists t; split; [reflexivity|]. revert E5.
    apply first_match_slice. reflexivity. }
  destruct (getBoundaryCharacterToken this (c :: s)) as [t|] eqn:E6.
  { exists t; split; [reflexivity|]. revert E6.
    apply first_match_slice. reflexivity. }
  apply boundary_None in E6.
  destruct (getReservedWordToken this (c :: s) prev) as [t|] eqn:E7.
  { exists t; split; [reflexivity|]. revert E7.
    apply reserved_slice; assumption. }
  destruct (getFunctionWordToken this (c :: s)) as [t|] eqn:E8.
  { exists t; split; [reflexivity|]. revert E8.
    apply function_slice; assumption. }
  cbn [orelse]. apply word_total; try assumption.
  unfold getQuotedStringToken in E3.
  destruct (mem c [dquote; squote; backtick; lbracket]) eqn:Q;
    [discriminate|].
  unfold is_quote, mem in *. simpl in *.
  repeat (apply orb_false_iff in Q; destruct Q as [? Q]).
  repeat (apply orb_false_iff; split); assumption.
Qed.

End Progress.

(** ** The scan loop terminates *)

Lemma skipn_app_length (v s : str) : skipn (List.length v) (v ++ s) = s.
Proof. induction v as [|c v IH]; simpl; auto. Qed.

Lemma skipn_shorter (n : nat) (c : N) (s : str) :
  (List.length (skipn (S n) (c :: s)) <= List.length s)%nat.
Proof. simpl. rewrite length_skipn. lia. Qed.

(** Each iteration ends the loop or leaves a shorter input, so the loop
    reaches its end within as many iterations as the input has code
    units. *)
Lemma tokenize_loop_total cfg : forall fuel input prev acc,
  (List.length input <= fuel)%nat ->
  exists r, tokenize_loop (constructor cfg) fuel input prev acc = Some r.
Proof.
  induction fuel as [|fuel IH]; intros input prev acc L.
  - destruct input; [|simpl in L; lia]. simpl. eauto.
  - destruct input as [|c s]; [simpl; eauto|].
    destruct (getNextToken_step cfg (c :: s) prev) as (t & G & R);
      [discriminate|].
    cbn [tokenize_loop]. rewrite G.
    destruct R as [v s' V N E | c' s' E Q U V | c0 c1 s' E Q U ->].
    + rewrite V, E, skipn_app_length. apply IH.
      destruct v as [|x v]; [contradiction|].
      injection E as -> ->. simpl in L. rewrite length_app in L. lia.
    + rewrite V. eauto.
    + cbn [value]. apply IH.
      change (List.length (c0 :: codes "undefined")) with 10%nat.
      pose proof (skipn_shorter 9 c s). simpl in L. lia.
Qed.

(** More fuel does not change the outcome. *)
Lemma tokenize_loop_more this : forall fuel fuel' input prev acc r,
  tokenize_loop this fuel input prev acc = Some r ->
  (fuel <= fuel')%nat ->
  tokenize_loop this fuel' input prev acc = Some r.
Proof.
  induction fuel as [|fuel IH]; intros fuel' input prev acc r H L.
  - destruct input; [|discriminate]. destruct fuel'; exact H.
  - destruct fuel' as [|fuel']; [lia|].
    destruct input as [|c s]; [exact H|].
    cbn [tokenize_loop] in *.
    destruct (getNextToken this (c :: s) prev) as [t|]; [|exact H].
    destruct (value t); [|exact H].
    apply (IH fuel'); [exact H | lia].
Qed.

Lemma tokenize_fuel_enough cfg input fuel :
  (List.length input <= fuel)%nat ->
  exists r, tokenize (constructor cfg) input = Some r
            /\ tokenize_fuel (constructor cfg) fuel input = Some r.
Proof.
  intros L. unfold tokenize, tokenize_fuel.
  destruct (tokenize_loop_total cfg (List.length input) input None [])
    as (r & H); [lia|].
  exists r. split; [exact H|].
  apply (tokenize_loop_more _ (List.length input)); assumption.
Qed.

(** ** When [STRING_REGEX] matches *)

Lemma drop_while_head p : forall s y s',
  drop_while p s = y :: s' -> p y = false /\ In y s.
Proof.
  induction s as [|c s IH]; intros y s' H; simpl in H; [discriminate|].
  destruct (p c) eqn:P.
  - apply IH in H. destruct H as [H I]. split; [exact H | right; exact I].
  - injection H as <- <-. split; [exact P | left; reflexivity].
Qed.

Lemma char_match_refl i a : char_match i a a = true.
Proof. unfold char_match. destruct i; apply N.eqb_refl. Qed.

(** A backtick or bracket segment matches whatever follows its opening
    character. *)
Lemma plain_segment_complete o c s k :
  (forall x, k x <> None) ->
  m false (plain_segment o c) (o :: s) k <> None.
Proof.
  intros T. unfold plain_segment.
  change (m false (Seq (Char o) (Seq (Star true (Class (isnt c)))
                                     (Alt Eoi (Char c)))) (o :: s) k)
    with (if char_match false o o
          then star_loop true (m false (Class (isnt c)))
                 (fun s1 => orelse (m false Eoi s1 k) (m false (Char c) s1 k))
                 (List.length s) s
          else None).
  rewrite char_match_refl.
  apply star_class_complete; [lia|].
  destruct (drop_while (isnt c) s) as [|y s'] eqn:D; simpl.
  - destruct (k []) eqn:E; simpl; [discriminate | exfalso; exact (T _ E)].
  - apply drop_while_head in D. destruct D as [D _].
    unfold isnt in D. apply negb_false_iff in D. apply N.eqb_eq in D.
    subst y. rewrite N.eqb_refl. apply T.
Qed.

(** A double or single quote segment matches whatever follows its opening
    quote, as long as that holds no backslash. *)
Lemma quoted_segment_complete q s k :
  (forall x, k x <> None) ->
  mem backslash s = false ->
  m false (quoted_segment q) (q :: s) k <> None.
Proof.
  intros T NB. unfold quoted_segment.
  set (esc := Seq (Char backslash)
                (Seq (Class is_dot) (Star true (Class (isnt2 q backslash))))).
  change (m false (Seq (Char q) (Seq (Star true (Class (isnt2 q backslash)))
                    (Seq (Star true esc) (Alt (Char q) Eoi)))) (q :: s) k)
    with (if char_match false q q
          then star_loop true (m false (Class (isnt2 q backslash)))
                 (fun s1 => star_loop true (m false esc)
                    (fun s2 => orelse (m false (Char q) s2 k)
                                      (m false Eoi s2 k))
                    (List.length s1) s1)
                 (List.length s) s
          else None).
  rewrite char_match_refl.
  apply star_class_complete; [lia|].
  apply star_loop_skip.
  destruct (drop_while (isnt2 q backslash) s) as [|y s'] eqn:D.
  - simpl. apply T.
  - apply drop_while_head in D. destruct D as [D I].
    assert (y = q) as ->.
    { unfold isnt2 in D. apply andb_false_iff in D.
      destruct D as [D | D]; apply negb_false_iff in D; apply N.eqb_eq in D;
        [exact D|].
      subst y. exfalso.
      assert (mem backslash s = true)
        by (apply existsb_exists; exists backslash; split;
            [exact I | apply N.eqb_refl]).
      congruence. }
    rewrite m_Char, char_match_refl.
    destruct (k s') eqn:E; simpl; [discriminate | exfalso; exact (T _ E)].
Qed.

Lemma plus_complete r s k :
  (forall x, k x <> None) ->
  (forall k', (forall x, k' x <> None) -> m false r s k' <> None) ->
  m false (Plus r) s k <> None.
Proof.
  intros T H. unfold Plus.
  change (m false (Seq r (Star true r)) s k)
    with (m false r s (fun s1 =>
            star_loop true (m false r) k (List.length s1) s1)).
  apply H. intros x. apply star_loop_skip. apply T.
Qed.

Lemma getQuotedString_complete cfg c s :
  mem c [dquote; squote; backtick; lbracket] = true ->
  mem backslash s = false ->
  getQuotedString (constructor cfg) (c :: s) <> None.
Proof.
  intros Q NB. unfold getQuotedString, match1.
  change (STRING_REGEX (constructor cfg)) with string_regex.
  cbn [ignoreCase group1 rest string_regex].
  set (k := fun s1 : str => m false Empty s1 (fun _ => Some s1)).
  assert (T : forall x, k x <> None) by (intros x; discriminate).
  assert (M : m false
    (alts (Plus (plain_segment backtick backtick))
       [Seq (plain_segment lbracket rbracket)
          (Star true (plain_segment rbracket rbracket));
        Plus (quoted_segment dquote); Plus (quoted_segment squote)])
    (c :: s) k <> None).
  { unfold mem in Q. simpl in Q.
    destruct (N.eqb_spec c dquote) as [-> | _].
    { apply (m_alts_complete _ _ _ (Plus (quoted_segment dquote)));
        [simpl; auto|].
      apply plus_complete; [exact T|]. intros k' T'.
      apply quoted_segment_complete; assumption. }
    destruct (N.eqb_spec c squote) as [-> | _].
    { apply (m_alts_complete _ _ _ (Plus (quoted_segment squote)));
        [simpl; auto|].
      apply plus_complete; [exact T|]. intros k' T'.
      apply quoted_segment_complete; assumption. }
    destruct (N.eqb_spec c backtick) as [-> | _].
    { apply (m_alts_complete _ _ _ (Plus (plain_segment backtick backtick)));
        [simpl; auto|].
      apply plus_complete; [exact T|]. intros k' T'.
      apply plain_segment_complete; assumption. }
    destruct (N.eqb_spec c lbracket) as [-> | _]; [|discriminate Q].
    apply (m_alts_complete _ _ _
             (Seq (plain_segment lbracket rbracket)
                  (Star true (plain_segment rbracket rbracket))));
      [simpl; auto|].
    change (m false (Seq (plain_segment lbracket rbracket)
                         (Star true (plain_segment rbracket rbracket)))
              (lbracket :: s) k)
      with (m false (plain_segment lbracket rbracket) (lbracket :: s)
              (fun s1 => star_loop true
                           (m false (plain_segment rbracket rbracket)) k
                           (List.length s1) s1)).
    apply plain_segment_complete. intros x. apply star_loop_skip. apply T. }
  destruct (m false _ (c :: s) _); [discriminate | contradiction].
Qed.

(** ** Losslessness when [STRING_REGEX] matches *)

Lemma mem_app c (a b : str) : mem c (a ++ b) = mem c a || mem c b.
Proof. unfold mem. apply existsb_app. Qed.

Lemma tokenize_loop_lossless cfg : forall fuel input prev acc,
  mem backslash input = false ->
  (List.length input <= fuel)%nat ->
  exists tokens,
    tokenize_loop (constructor cfg) fuel input prev acc
    = Some (Returned (acc ++ tokens))
    /\ concat_texts tokens = input
    /\ Forall has_text tokens.
Proof.
  induction fuel as [|fuel IH]; intros input prev acc NB L.
  - destruct input; [|simpl in L; lia].
    exists []. rewrite app_nil_r. simpl. auto.
  - destruct input as [|c s].
    { exists []. rewrite app_nil_r. simpl. auto. }
    destruct (getNextToken_step cfg (c :: s) prev) as (t & G & R);
      [discriminate|].
    cbn [tokenize_loop]. rewrite G.
    destruct R as [v s' V N E | c' s' E Q U V | c0 c1 s' E Q U ->].
    + rewrite V, E, skipn_app_length.
      rewrite E, mem_app in NB. apply orb_false_iff in NB.
      destruct NB as [_ NB].
      destruct (IH s' (Some t) (acc ++ [t]) NB) as (tokens & H & C & F).
      { assert (List.length (c :: s) = List.length (v ++ s')) as E'
          by (rewrite E; reflexivity).
        rewrite length_app in E'. simpl in E', L.
        destruct v; [contradiction | simpl in E'; lia]. }
      exists (t :: tokens). rewrite H, <- app_assoc. simpl.
      split; [reflexivity|]. split.
      * unfold concat_texts in *. simpl. unfold text at 1.
        rewrite V, C. reflexivity.
      * constructor; [exists v; auto | exact F].
    + exfalso. injection E as <- <-.
      apply (getQuotedString_complete cfg c s Q); [|exact U].
      change (c :: s) with ([c] ++ s) in NB. rewrite mem_app in NB.
      apply orb_false_iff in NB. tauto.
    + exfalso. injection E as <- ->.
      apply (getQuotedString_complete cfg c1 s'); [| |exact U].
      * unfold mem in Q |- *. cbn [existsb] in Q |- *.
        destruct (c1 =? dquote), (c1 =? squote), (c1 =? backtick);
          simpl in Q |- *; try reflexivity; discriminate Q.
      * change (c :: c1 :: s') with ([c; c1] ++ s') in NB.
        rewrite mem_app in NB. apply orb_false_iff in NB. tauto.
Qed.

(** On an input without a backslash the tokens are non-empty slices whose
    concatenation is the input. *)
Lemma tokenize_lossless cfg input :
  mem backslash input = false ->
  exists tokens,
    tokenize (constructor cfg) input = Some (Returned tokens)
    /\ concat_texts tokens = input
    /\ Forall has_text tokens.
Proof.
  intros NB. unfold tokenize, tokenize_fuel.
  apply (tokenize_loop_lossless cfg _ input None [] NB). lia.
Qed.

(** The loop raises nothing but [TypeError]. *)
Lemma tokenize_loop_throws this : forall fuel input prev acc e,
  tokenize_loop this fuel input prev acc = Some (Thrown e) -> e = TypeError.
Proof.
  induction fuel as [|fuel IH]; intros input prev acc e H.
  - destruct input; discriminate.
  - destruct input as [|c s]; [discriminate|].
    cbn [tokenize_loop] in H.
    destruct (getNextToken this (c :: s) prev) as [t|]; [|congruence].
    destruct (value t); [|congruence].
    apply IH in H. exact H.
Qed.

(** ** Runs of a class *)

Lemma take_drop_while p : forall s, take_while p s ++ drop_while p s = s.
Proof.
  induction s as [|c s IH]; simpl; [reflexivity|].
  destruct (p c); simpl; [rewrite IH|]; reflexivity.
Qed.

Lemma take_while_all p : forall s, forallb p (take_while p s) = true.
Proof.
  induction s as [|c s IH]; simpl; [reflexivity|].
  destruct (p c) eqn:P; simpl; [rewrite P, IH|]; reflexivity.
Qed.

Lemma star_loop_nil greedy i p k n :
  star_loop greedy (m i (Class p)) k n [] = k [].
Proof.
  destruct n; simpl; [reflexivity|].
  destruct greedy, (k []); reflexivity.
Qed.

(** The first path of a greedy run over a class on which the continuation
    succeeds is the longest one. *)
Lemma star_class_greedy i p k a : forall s n,
  (List.length s <= n)%nat ->
  k (drop_while p s) = Some a ->
  star_loop true (m i (Class p)) k n s = Some a.
Proof.
  induction s as [|c s IH]; intros n L H.
  - rewrite star_loop_nil. exact H.
  - destruct n as [|n]; [simpl in L; lia|].
    simpl in H. cbn [star_loop]. rewrite m_Class.
    destruct (p c) eqn:P.
    + rewrite length_tail_neq, (IH n); [reflexivity | simpl in L; lia | exact H].
    + simpl. exact H.
Qed.

Lemma lazy_class_scan i p k : forall s n,
  (List.length s <= n)%nat ->
  star_loop false (m i (Class p)) k n s = lazy_scan p k s.
Proof.
  induction s as [|c s IH]; intros n L.
  - rewrite star_loop_nil. simpl. destruct (k []); reflexivity.
  - destruct n as [|n]; [simpl in L; lia|].
    cbn [star_loop lazy_scan]. rewrite m_Class.
    destruct (k (c :: s)); cbn [orelse]; [reflexivity|].
    destruct (p c); [|reflexivity].
    rewrite length_tail_neq. apply IH. simpl in L; lia.
Qed.

Lemma match1_exact input re v s' :
  m (ignoreCase re) (group1 re) input
    (fun s1 => m (ignoreCase re) (rest re) s1 (fun _ => Some s1)) = Some s' ->
  input = v ++ s' ->
  match1 input re = Some v.
Proof.
  intros H ->. unfold match1. rewrite H, firstn_app_minus. reflexivity.
Qed.

Lemma m_Plus_class i p c s k :
  m i (Plus (Class p)) (c :: s) k
  = if p c then star_loop true (m i (Class p)) k (List.length s) s else None.
Proof. reflexivity. Qed.

(** ** Closed quoted segments *)





(** * Properties of the specification *)

(** ** C1: losslessness *)

(** C1.  The claim is that [tokenize] always returns tokens whose texts are
    non-empty slices of the input and concatenate to the input.  On the
    three code units of an at sign, a double quote and a backslash the code
    returns, for every configuration, the single VARIABLE token with the
    text "@undefined": [STRING_REGEX] does not match the quote and the
    backslash, [getQuotedString] returns [undefined], and the variable
    matcher concatenates it to the sigil.  The text is not a slice of the
    input and the concatenation of the texts is not the input.
    ([tokenize_lossless] proves the claim for inputs without a
    backslash.) *)
Theorem tokenize_unmatched_variable_not_lossless cfg :
  let input := codes "@" ++ [dquote; backslash] in
  tokenize (constructor cfg) input
  = Some (Returned [tok VARIABLE "@undefined"])
  /\ concat_texts [tok VARIABLE "@undefined"] <> input.
Proof.
  split; [reflexivity | discriminate].
Qed.

(** ** C3: the number matcher *)

(** C3.  The claim is that a minus sign followed by spaces and digits is
    one NUMBER token, and that a quote character after the digits ends a
    number.  In the code the sign part of [NUMBER_REGEX] is a minus sign
    followed by letters s, and what may follow a number is the three quote
    characters in a row: the number matcher matches neither input, "- 5"
    is three tokens, and the "5" before a quote is a WORD.  (The digits
    that start "2ndcolumn" are no number, as the claim says.) *)
Theorem number_matcher_sign_and_quote cfg :
  getNumberToken (constructor cfg) (codes "- 5") = None
  /\ getNumberToken (constructor cfg) (codes "5'x'") = None
  /\ getNumberToken (constructor cfg) (codes "2ndcolumn") = None
  /\ getNumberToken (constructor cfg) (codes "-ss5")
     = Some (tok NUMBER "-ss5")
  /\ tokenize (constructor cfg) (codes "- 5")
     = Some (Returned [tok BOUNDARY "-"; tok WHITESPACE " "; tok NUMBER "5"])
  /\ tokenize (constructor sample_cfg) (codes "5'x'")
     = Some (Returned [tok WORD "5"; tok QUOTE "'x'"]).
Proof.
  repeat split; reflexivity.
Qed.

(** ** C4: unterminated quotes *)

(** C4.  The claim is that an unterminated quote is consumed to the end of
    the input and never makes [tokenize] fail.  When the text after the
    opening double quote ends in a backslash, [STRING_REGEX] does not
    match, the token's value is [undefined], and reading its length raises
    a TypeError, for every configuration. *)
Theorem unterminated_quote_throws cfg :
  getQuotedString (constructor cfg) (dquote :: codes "a" ++ [backslash])
  = None
  /\ tokenize (constructor cfg) (dquote :: codes "a" ++ [backslash])
     = Some (Thrown TypeError).
Proof.
  split; reflexivity.
Qed.

(** ** C6: termination *)

(** C6.  The claim is that [tokenize] terminates and returns within as
    many iterations as the input has code units.  The loop does end within
    that many iterations ([tokenize_fuel_enough]), but on a single quote
    followed by a backslash it ends by raising the TypeError in the first
    iteration: with no amount of fuel does it return. *)
Theorem tokenize_does_not_return cfg fuel tokens :
  tokenize_fuel (constructor cfg) fuel [squote; backslash]
  <> Some (Returned tokens).
Proof.
  destruct fuel as [|fuel]; [discriminate|].
  change (tokenize_fuel (constructor cfg) (S fuel) [squote; backslash])
    with (Some (@Thrown (list Token) TypeError)).
  discriminate.
Qed.

(** ** C9: adjacent quoted segments *)





(** ** C2: the progress guarantee *)

Lemma getNextToken_text cfg c s prev :
  exists t, getNextToken (constructor cfg) (c :: s) prev = Some t
            /\ value t <> Some [].
Proof.
  destruct (getNextToken_step cfg (c :: s) prev) as (t & G & R);
    [discriminate|].
  exists t. split; [exact G|].
  destruct R as [v s' V N E | c' s' E Q U V | c0 c1 s' E Q U ->].
  - rewrite V. intros H; injection H as ->. apply N. reflexivity.
  - rewrite V. discriminate.
  - discriminate.
Qed.

Lemma tokenize_ends cfg input :
  exists r, tokenize (constructor cfg) input = Some r
            /\ (forall e, r = Thrown e -> e = TypeError).
Proof.
  destruct (tokenize_fuel_enough cfg input (List.length input)) as (r & H & _);
    [lia|].
  exists r. split; [exact H|]. intros e ->.
  unfold tokenize, tokenize_fuel in H.
  apply tokenize_loop_throws in H. exact H.
Qed.

Ltac not_consumed :=
  let t := fresh "t" in let v := fresh "v" in
  let E := fresh "E" in let V := fresh "V" in let N := fresh "N" in
  intros (t & v & E & V & N); vm_compute in E;
  try discriminate E; injection E as <-; vm_compute in V;
  try discriminate V; injection V as <-; apply N; reflexivity.

(** C2, as stated, fails.  On a double quote followed by a backslash no
    matcher of the chain produces a match that consumes input (the quoted
    string matcher builds a token without a text, the fallback matches the
    empty string), and [tokenize] raises a TypeError, not a LexError. *)
Lemma unmatched_quote_is_not_LexError :
  [dquote; backslash] <> []
  /\ no_progress (constructor sample_cfg) [dquote; backslash] None
  /\ tokenize (constructor sample_cfg) [dquote; backslash]
     = Some (Thrown TypeError)
  /\ ~ (exists offset,
          tokenize (constructor sample_cfg) [dquote; backslash]
          = Some (Thrown (LexError offset))).
Proof.
  split; [discriminate|]. split; [|split; [reflexivity|]].
  - unfold no_progress, chain. repeat constructor; not_consumed.
  - intros (offset & H). vm_compute in H. discriminate H.
Qed.

(** C2, amended.  [tokenize] has no LexError and no progress check.  For a
    configuration of keyword strings, on every non-empty remaining input
    the matcher chain yields a token, and the token's text, when it has
    one, is not empty; the scan therefore ends within as many iterations as
    the input has code units, and it never fails with a LexError. *)
Theorem chain_always_progresses cfg c s prev :
  keyword_cfg cfg = true ->
  (exists t, getNextToken (constructor cfg) (c :: s) prev = Some t
             /\ value t <> Some [])
  /\ (exists r, tokenize (constructor cfg) (c :: s) = Some r
                /\ forall offset, r <> Thrown (LexError offset)).
Proof.
  intros _. split; [apply getNextToken_text|].
  destruct (tokenize_ends cfg (c :: s)) as (r & H & T).
  exists r. split; [exact H|].
  intros offset E. apply T in E. discriminate E.
Qed.

(** The amended C2 on a double quote followed by a backslash. *)
Lemma chain_always_progresses_witness :
  (exists t, getNextToken (constructor sample_cfg) [dquote; backslash] None
             = Some t
             /\ value t <> Some [])
  /\ (exists r, tokenize (constructor sample_cfg) [dquote; backslash]
                = Some r
                /\ forall offset, r <> Thrown (LexError offset)).
Proof.
  apply (chain_always_progresses sample_cfg dquote [backslash] None).
  reflexivity.
Defined.

(** ** C5: construction *)

(** C5, as stated, fails.  With all four keyword lists empty the
    construction succeeds, and the reserved-word rule it builds matches the
    empty string. *)
Lemma empty_lists_construct :
  reservedWords empty_cfg = []
  /\ new_SqlTokenizer empty_cfg = Returned (constructor empty_cfg)
  /\ new_SqlTokenizer empty_cfg <> Thrown ConfigError
  /\ match1 (codes " ") (RESERVED_REGEX (constructor empty_cfg)) = Some [].
Proof.
  repeat split; try reflexivity. discriminate.
Qed.

(** C5, amended.  Constructing a tokenizer from keyword strings never
    fails, whether or not a keyword list is empty.  A rule built from an
    empty list can match the empty string, but no token with an empty text
    comes out of the matcher chain, and no configuration error is raised at
    tokenize time. *)
Theorem construction_never_fails cfg :
  keyword_cfg cfg = true ->
  new_SqlTokenizer cfg = Returned (constructor cfg)
  /\ (forall c s prev,
        option_map value (getNextToken (constructor cfg) (c :: s) prev)
        <> Some (Some []))
  /\ (forall fuel input,
        tokenize_fuel (constructor cfg) fuel input
        <> Some (Thrown ConfigError)).
Proof.
  intros _. split; [reflexivity|]. split.
  - intros c s prev.
    destruct (getNextToken_text cfg c s prev) as (t & G & V).
    rewrite G. simpl. congruence.
  - intros fuel input H. unfold tokenize_fuel in H.
    apply tokenize_loop_throws in H. discriminate H.
Qed.

(** The amended C5 on the configuration of four empty lists. *)
Lemma construction_never_fails_witness :
  new_SqlTokenizer empty_cfg = Returned (constructor empty_cfg)
  /\ (forall c s prev,
        option_map value (getNextToken (constructor empty_cfg) (c :: s) prev)
        <> Some (Some []))
  /\ (forall fuel input,
        tokenize_fuel (constructor empty_cfg) fuel input
        <> Some (Thrown ConfigError)).
Proof.
  apply (construction_never_fails empty_cfg). reflexivity.
Defined.

(** ** C7: reserved words after a dot *)

Ltac scan_step t v input' :=
  rewrite (tokenize_loop_step _ _ _ _ _ t v input');
  [ | discriminate | | reflexivity | reflexivity ].

(** C7, as stated, fails.  When [t] is itself a reserved word, the first
    token of "t.from" is RESERVED, not WORD. *)
Lemma reserved_word_before_dot :
  listed (codes "from") (reservedToplevelWords cfg_reserved_t) = true
  /\ tokenize (constructor cfg_reserved_t) (codes "t.from")
     = Some (Returned [tok RESERVED "t"; tok BOUNDARY "."; tok WORD "from"])
  /\ tokenize (constructor cfg_reserved_t) (codes "t.from")
     <> Some (Returned [tok WORD "t"; tok BOUNDARY "."; tok WORD "from"]).
Proof.
  split; [reflexivity|]. split; [reflexivity|].
  vm_compute. discriminate.
Qed.

(** C7, amended.  The three reserved-word matchers are skipped whenever the
    text of the previous token is exactly ".".  For every configuration of
    keyword strings with "from" among the toplevel reserved words and "t"
    in none of the reserved-word lists, "t.from" is the three tokens
    WORD "t", BOUNDARY ".", WORD "from". *)
Theorem dot_suppression cfg :
  keyword_cfg cfg = true ->
  listed (codes "from") (reservedToplevelWords cfg) = true ->
  unreserved (codes "t") cfg = true ->
  (forall input ty,
     getReservedWordToken (constructor cfg) input (Some (tok ty ".")) = None)
  /\ tokenize (constructor cfg) (codes "t.from")
     = Some (Returned [tok WORD "t"; tok BOUNDARY "."; tok WORD "from"]).
Proof.
  intros K F U. split; [reflexivity|].
  unfold tokenize, tokenize_fuel.
  change (List.length (codes "t.from")) with 6%nat.
  scan_step (tok WORD "t") (codes "t") (codes ".from").
  2:{ unfold getNextToken.
      rewrite (reserved_none cfg K) by no_candidate.
      rewrite (function_none cfg K) by no_candidate.
      reflexivity. }
  scan_step (tok BOUNDARY ".") (codes ".") (codes "from");
    [|reflexivity].
  scan_step (tok WORD "from") (codes "from") (@nil N).
  2:{ unfold getNextToken.
      change (getReservedWordToken (constructor cfg) (codes "from")
                (Some (tok BOUNDARY "."))) with (@None Token).
      rewrite (function_none cfg K) by no_candidate.
      reflexivity. }
  reflexivity.
Qed.

(** The amended C7 on the sample configuration. *)
Lemma dot_suppression_witness :
  (forall input ty,
     getReservedWordToken (constructor sample_cfg) input
       (Some (tok ty ".")) = None)
  /\ tokenize (constructor sample_cfg) (codes "t.from")
     = Some (Returned [tok WORD "t"; tok BOUNDARY "."; tok WORD "from"]).
Proof.
  apply (dot_suppression sample_cfg); reflexivity.
Defined.

(** ** C8: function words *)

(** C8, as stated, fails.  When [x] is a reserved word, the last token of
    "count x" is RESERVED, not WORD; when the phrase "count x" is a
    reserved word, the whole input is one RESERVED token. *)
Lemma reserved_word_after_function_name :
  listed (codes "count") (functionWords cfg_reserved_x) = true
  /\ unreserved (codes "count") cfg_reserved_x = true
  /\ tokenize (constructor cfg_reserved_x) (codes "count x")
     = Some (Returned [tok WORD "count"; tok WHITESPACE " ";
                       tok RESERVED "x"])
  /\ tokenize (constructor cfg_reserved_x) (codes "count x")
     <> Some (Returned [tok WORD "count"; tok WHITESPACE " ";
                        tok WORD "x"])
  /\ listed (codes "count") (functionWords cfg_reserved_phrase) = true
  /\ unreserved (codes "count") cfg_reserved_phrase = true
  /\ tokenize (constructor cfg_reserved_phrase) (codes "count x")
     = Some (Returned [tok RESERVED "count x"]).
Proof.
  repeat (split; [reflexivity|]). split; [vm_compute; discriminate|].
  repeat split; reflexivity.
Qed.

(** C8, amended.  For every configuration of keyword strings with "count"
    among the function words, and with none of "count", "x" and the phrase
    "count x" in a reserved-word list, "count(" is the two tokens
    RESERVED "count", BOUNDARY "(", and "count x" is the three tokens
    WORD "count", WHITESPACE " ", WORD "x". *)
Theorem function_word_needs_parenthesis cfg :
  keyword_cfg cfg = true ->
  listed (codes "count") (functionWords cfg) = true ->
  unreserved (codes "count") cfg = true ->
  unreserved (codes "x") cfg = true ->
  unreserved (codes "count x") cfg = true ->
  tokenize (constructor cfg) (codes "count(")
  = Some (Returned [tok RESERVED "count"; tok BOUNDARY "("])
  /\ tokenize (constructor cfg) (codes "count x")
     = Some (Returned [tok WORD "count"; tok WHITESPACE " "; tok WORD "x"]).
Proof.
  intros K F U1 U2 U3. unfold tokenize, tokenize_fuel. split.
  - change (List.length (codes "count(")) with 6%nat.
    scan_step (tok RESERVED "count") (codes "count") (codes "(").
    2:{ unfold getNextToken.
        rewrite (reserved_none cfg K) by no_candidate.
        rewrite (function_some cfg K _ (codes "count"));
          [reflexivity | reflexivity | discriminate | exact F]. }
    scan_step (tok BOUNDARY "(") (codes "(") (@nil N); [|reflexivity].
    reflexivity.
  - change (List.length (codes "count x")) with 7%nat.
    scan_step (tok WORD "count") (codes "count") (codes " x").
    2:{ unfold getNextToken.
        rewrite (reserved_none cfg K) by no_candidate.
        rewrite (function_none cfg K) by no_candidate.
        reflexivity. }
    scan_step (tok WHITESPACE " ") (codes " ") (codes "x"); [|reflexivity].
    scan_step (tok WORD "x") (codes "x") (@nil N).
    2:{ unfold getNextToken.
        rewrite (reserved_none cfg K) by no_candidate.
        rewrite (function_none cfg K) by no_candidate.
        reflexivity. }
    reflexivity.
Qed.

(** The amended C8 on the sample configuration. *)
Lemma function_word_needs_parenthesis_witness :
  tokenize (constructor sample_cfg) (codes "count(")
  = Some (Returned [tok RESERVED "count"; tok BOUNDARY "("])
  /\ tokenize (constructor sample_cfg) (codes "count x")
     = Some (Returned [tok WORD "count"; tok WHITESPACE " "; tok WORD "x"]).
Proof.
  apply (function_word_needs_parenthesis sample_cfg); reflexivity.
Defined.

(** ** C10: one token of lookback *)

Lemma reserved_value cfg input prev t :
  keyword_cfg cfg = true ->
  getReservedWordToken (constructor cfg) input prev = Some t ->
  exists ty v, t = mkToken ty (Some v) /\ In v (candidates word_end input).
Proof.
  intros K. destruct (keyword_cfg_lists cfg K) as (K1 & K2 & K3 & _).
  unfold getReservedWordToken, getTokenOnFirstMatch.
  destruct (is_dot_token prev); [discriminate|].
  cbn [RESERVED_TOPLEVEL_REGEX RESERVED_NEWLINE_REGEX RESERVED_REGEX
       constructor].
  unfold reserved_regex.
  destruct (match1 input (mkRegExp (join (reservedToplevelWords cfg)) _ _))
    as [v|] eqn:E1.
  { intros H; injection H as <-. exists RESERVED_TOPLEVEL, v.
    split; [reflexivity|].
    apply (keyword_match_candidates _ _ _ _ K2 E1). }
  destruct (match1 input (mkRegExp (join (reservedNewlineWords cfg)) _ _))
    as [v|] eqn:E2.
  { intros H; injection H as <-. exists RESERVED_NEWLINE, v.
    split; [reflexivity|].
    apply (keyword_match_candidates _ _ _ _ K3 E2). }
  destruct (match1 input (mkRegExp (join (reservedWords cfg)) _ _))
    as [v|] eqn:E3; [|discriminate].
  intros H; injection H as <-. exists RESERVED, v.
  split; [reflexivity|].
  apply (keyword_match_candidates _ _ _ _ K1 E3).
Qed.

(** C10, as stated, fails.  With "from" among the toplevel words, a
    reserved word can still take the whole of "t. from": when the phrase
    itself is a reserved word, the input is one RESERVED token and no
    token "from" is classified at all. *)
Lemma reserved_phrase_across_the_dot :
  listed (codes "from") (reservedToplevelWords cfg_reserved_dotted) = true
  /\ tokenize (constructor cfg_reserved_dotted) (codes "t. from")
     = Some (Returned [tok RESERVED "t. from"])
  /\ (forall tokens,
        tokenize (constructor cfg_reserved_dotted) (codes "t. from")
        = Some (Returned tokens) ->
        ~ In (tok RESERVED_TOPLEVEL "from") tokens)
  /\ keyword_cfg cfg_reserved_dotted = false.
Proof.
  split; [reflexivity|]. split; [reflexivity|]. split; [|reflexivity].
  intros tokens H. vm_compute in H. injection H as <-.
  intros [I | []]. discriminate I.
Qed.

(** C10, amended.  Whether the reserved-word matchers are skipped depends
    on the previous token alone: after any token whose text is not ".",
    they answer as they do at the start of the input.  For every
    configuration of keyword strings (so that no keyword holds a dot) with
    "from" among the toplevel reserved words, the "from" of "t. from"
    comes after the whitespace token and is RESERVED_TOPLEVEL. *)
Theorem reserved_after_dot_and_space cfg :
  keyword_cfg cfg = true ->
  listed (codes "from") (reservedToplevelWords cfg) = true ->
  (forall input prev,
     value prev <> Some (codes ".") ->
     getReservedWordToken (constructor cfg) input (Some prev)
     = getReservedWordToken (constructor cfg) input None)
  /\ exists ty,
       tokenize (constructor cfg) (codes "t. from")
       = Some (Returned [tok ty "t"; tok BOUNDARY "."; tok WHITESPACE " ";
                         tok RESERVED_TOPLEVEL "from"]).
Proof.
  intros K F. split.
  { intros input prev V. unfold getReservedWordToken.
    replace (is_dot_token (Some prev)) with false; [reflexivity|].
    unfold is_dot_token. destruct (value prev) as [[|c [|c' v]]|];
      try reflexivity.
    destruct (N.eqb_spec c (chr ".")) as [-> | _]; [|reflexivity].
    exfalso. apply V. reflexivity. }
  assert (G : exists ty,
    getNextToken (constructor cfg) (codes "t. from") None
    = Some (tok ty "t")).
  { unfold getNextToken.
    destruct (getReservedWordToken (constructor cfg) (codes "t. from") None)
      as [t|] eqn:R.
    - apply (reserved_value cfg _ _ _ K) in R.
      destruct R as (ty & v & -> & I). vm_compute in I.
      destruct I as [<- | []]. exists ty. reflexivity.
    - rewrite (function_none cfg K) by no_candidate.
      exists WORD. reflexivity. }
  destruct G as (ty & G). exists ty.
  unfold tokenize, tokenize_fuel.
  change (List.length (codes "t. from")) with 7%nat.
  scan_step (tok ty "t") (codes "t") (codes ". from"); [|exact G].
  scan_step (tok BOUNDARY ".") (codes ".") (codes " from"); [|reflexivity].
  scan_step (tok WHITESPACE " ") (codes " ") (codes "from"); [|reflexivity].
  scan_step (tok RESERVED_TOPLEVEL "from") (codes "from") (@nil N).
  2:{ unfold getNextToken.
      rewrite (reserved_toplevel_some cfg K _ _ (codes "from"));
        [reflexivity | reflexivity | reflexivity | discriminate | exact F]. }
  reflexivity.
Qed.

(** The amended C10 on the sample configuration, with the whitespace
    token as the previous token. *)
Lemma reserved_after_dot_and_space_witness :
  getReservedWordToken (constructor sample_cfg) (codes "from")
    (Some (tok WHITESPACE " "))
  = getReservedWordToken (constructor sample_cfg) (codes "from") None
  /\ exists ty,
       tokenize (constructor sample_cfg) (codes "t. from")
       = Some (Returned [tok ty "t"; tok BOUNDARY "."; tok WHITESPACE " ";
                         tok RESERVED_TOPLEVEL "from"]).
Proof.
  destruct (reserved_after_dot_and_space sample_cfg eq_refl eq_refl)
    as [G E].
  split; [apply G; discriminate | exact E].
Defined.

(** * Further properties of the tokenizer *)

(** ** Whitespace *)

Lemma getWhitespaceToken_run cfg input :
  getWhitespaceToken (constructor cfg) input
  = match take_while is_space input with
    | [] => None
    | v => Some (mkToken WHITESPACE (Some v))
    end.
Proof.
  destruct input as [|c s]; [reflexivity|].
  unfold getWhitespaceToken, getTokenOnFirstMatch.
  cbn [take_while]. destruct (is_space c) eqn:W.
  - rewrite (match1_exact _ _ (c :: take_while is_space s)
               (drop_while is_space s)); [reflexivity | |].
    + cbn [ignoreCase group1 rest WHITESPACE_REGEX constructor].
      rewrite m_Plus_class, W.
      apply star_class_greedy; [lia | reflexivity].
    + simpl. rewrite take_drop_while. reflexivity.
  - unfold match1.
    cbn [ignoreCase group1 rest WHITESPACE_REGEX constructor].
    rewrite m_Plus_class, W. reflexivity.
Qed.

(** X1.  The whitespace matcher takes the longest run of space characters
    at the start of the input, and nothing when the input does not start
    with one. *)
Theorem whitespace_token_is_longest_run cfg input :
  getWhitespaceToken (constructor cfg) input
  = match take_while is_space input with
    | [] => None
    | v => Some (mkToken WHITESPACE (Some v))
    end.
Proof. apply getWhitespaceToken_run. Qed.

(** ** Boundaries *)

Lemma getBoundaryCharacterToken_one cfg input :
  getBoundaryCharacterToken (constructor cfg) input
  = match input with
    | c :: _ => if is_boundary c then Some (mkToken BOUNDARY (Some [c]))
                else None
    | [] => None
    end.
Proof.
  destruct input as [|c s]; [reflexivity|].
  unfold getBoundaryCharacterToken, getTokenOnFirstMatch, match1.
  cbn [ignoreCase group1 rest BOUNDARY_REGEX constructor].
  rewrite m_boundaries. fold (is_boundary c).
  destruct (is_boundary c); [|reflexivity].
  cbn [m]. replace (List.length (c :: s) - List.length s)%nat with 1%nat
    by (cbn [List.length]; lia).
  reflexivity.
Qed.

(** X2.  The boundary matcher takes exactly one character, and only one of
    the nineteen boundary characters. *)
Theorem boundary_token_is_one_character cfg input :
  getBoundaryCharacterToken (constructor cfg) input
  = match input with
    | c :: _ => if is_boundary c then Some (mkToken BOUNDARY (Some [c]))
                else None
    | [] => None
    end.
Proof. apply getBoundaryCharacterToken_one. Qed.

(** ** The fallback word *)

Lemma rest_matches_value i r s :
  m i r s (fun _ => Some s) = if rest_matches i r s then Some s else None.
Proof.
  unfold rest_matches.
  destruct (m i r s (fun _ => Some s)) as [a|] eqn:E; [|reflexivity].
  apply m_inv in E. destruct E as (_ & _ & _ & _ & E). simpl. congruence.
Qed.

Lemma word_scan : forall s,
  lazy_scan is_dot (fun s1 => m false word_rest s1 (fun _ => Some s1)) s
  = Some (drop_while is_word_char s).
Proof.
  induction s as [|c s IH]; [reflexivity|].
  cbn [lazy_scan drop_while]. rewrite rest_matches_value, word_rest_first.
  unfold is_word_char. fold (is_word_stop c).
  destruct (is_word_stop c) eqn:S; [reflexivity|]. cbn [negb].
  destruct (is_dot c) eqn:D; [exact IH|].
  apply line_terminator_is_space in D.
  unfold is_word_stop in S. rewrite D in S. discriminate S.
Qed.

Lemma getNonReservedWordToken_run cfg input :
  getNonReservedWordToken (constructor cfg) input
  = Some (mkToken WORD (Some (take_while is_word_char input))).
Proof.
  unfold getNonReservedWordToken, getTokenOnFirstMatch.
  rewrite (match1_exact _ _ (take_while is_word_char input)
             (drop_while is_word_char input)); [reflexivity | |].
  - cbn [ignoreCase group1 rest NON_RESERVED_WORD_REGEX constructor].
    change (m false (Star false (Class is_dot)) input
              (fun s1 => m false word_rest s1 (fun _ => Some s1)))
      with (star_loop false (m false (Class is_dot))
              (fun s1 => m false word_rest s1 (fun _ => Some s1))
              (List.length input) input).
    rewrite lazy_class_scan by lia. apply word_scan.
  - symmetry. apply take_drop_while.
Qed.

(** X3.  The fallback matcher never fails: it takes the characters up to
    the first space, quote character or boundary (all of the input when it
    has none), so a WORD holds none of these characters. *)
Theorem word_token_runs_to_first_stop cfg input :
  getNonReservedWordToken (constructor cfg) input
  = Some (mkToken WORD (Some (take_while is_word_char input)))
  /\ forallb is_word_char (take_while is_word_char input) = true.
Proof.
  split; [apply getNonReservedWordToken_run | apply take_while_all].
Qed.

(** ** Variables *)

(** X4.  After a sigil that is not followed by a quote character, the
    variable matcher takes the sigil and the longest run of variable
    characters, and nothing when there is no such character. *)
Theorem variable_token_is_longest_run cfg c0 c1 s :
  mem c0 (codes "@:") = true ->
  mem c1 [dquote; squote; backtick] = false ->
  getVariableToken (constructor cfg) (c0 :: c1 :: s)
  = match take_while is_variable_char (c1 :: s) with
    | [] => None
    | v => Some (mkToken VARIABLE (Some (c0 :: v)))
    end.
Proof.
  intros S Q. unfold getVariableToken. rewrite S, Q.
  unfold getTokenOnFirstMatch. cbn [take_while].
  destruct (is_variable_char c1) eqn:V.
  - rewrite (match1_exact _ _ (c0 :: c1 :: take_while is_variable_char s)
               (drop_while is_variable_char s)); [reflexivity | |].
    + cbn [ignoreCase group1 rest].
      change (m false (Seq (Char c0) (Plus (Class is_variable_char)))
                (c0 :: c1 :: s) (fun s1 => m false Empty s1 (fun _ => Some s1)))
        with (if char_match false c0 c0
              then m false (Plus (Class is_variable_char)) (c1 :: s)
                     (fun s1 => Some s1)
              else None).
      rewrite char_match_refl, m_Plus_class, V.
      apply star_class_greedy; [lia | reflexivity].
    + simpl. rewrite take_drop_while. reflexivity.
  - unfold match1. cbn [ignoreCase group1 rest].
    change (m false (Seq (Char c0) (Plus (Class is_variable_char)))
              (c0 :: c1 :: s) (fun s1 => m false Empty s1 (fun _ => Some s1)))
      with (if char_match false c0 c0
            then m false (Plus (Class is_variable_char)) (c1 :: s)
                   (fun s1 => Some s1)
            else None).
    rewrite char_match_refl, m_Plus_class, V. reflexivity.
Qed.

(** X4 on the variable [@a1] followed by a space. *)
Lemma variable_token_is_longest_run_witness :
  getVariableToken (constructor sample_cfg) (codes "@a1 ")
  = Some (tok VARIABLE "@a1").
Proof.
  apply (variable_token_is_longest_run sample_cfg (chr "@") (chr "a")
           (codes "1 ")); reflexivity.
Defined.

(** ** Comments *)

Lemma line_comment_scan cfg opener s :
  opener = codes "#" \/ opener = codes "--" ->
  m (ignoreCase (LINE_COMMENT_REGEX (constructor cfg)))
    (group1 (LINE_COMMENT_REGEX (constructor cfg))) (opener ++ s)
    (fun s1 => m (ignoreCase (LINE_COMMENT_REGEX (constructor cfg)))
                 (rest (LINE_COMMENT_REGEX (constructor cfg))) s1
                 (fun _ => Some s1))
  = lazy_scan is_dot (line_end (fun s1 => Some s1)) s.
Proof.
  intros O. cbn [ignoreCase group1 rest LINE_COMMENT_REGEX constructor].
  rewrite <- (lazy_class_scan false is_dot _ s (List.length s)) by lia.
  destruct O as [-> | ->].
  - change (codes "#" ++ s) with (chr "#" :: s).
    change (m false
              (Seq (Alt (Char (chr "#")) (Lit (codes "--")))
                 (Seq (Star false (Class is_dot)) (Alt (Char newline) Eoi)))
              (chr "#" :: s) (fun s1 => m false Empty s1 (fun _ => Some s1)))
      with (orelse
              (star_loop false (m false (Class is_dot))
                 (line_end (fun s1 => Some s1)) (List.length s) s)
              None).
    destruct (star_loop _ _ _ _ _); reflexivity.
  - reflexivity.
Qed.

Lemma line_scan_body k : forall body tail,
  forallb is_dot body = true ->
  lazy_scan is_dot (line_end k) (body ++ tail)
  = lazy_scan is_dot (line_end k) tail.
Proof.
  induction body as [|c body IH]; intros tail D; [reflexivity|].
  simpl in D. apply andb_true_iff in D. destruct D as [Dc D].
  change ((c :: body) ++ tail) with (c :: body ++ tail).
  cbn [lazy_scan]. unfold line_end at 1.
  rewrite m_Char. cbn [m].
  assert (E : char_match false newline c = false).
  { unfold char_match. apply N.eqb_neq. intros <-. discriminate Dc. }
  rewrite E, Dc. cbn [orelse]. apply IH. exact D.
Qed.

(** X5.  A line comment opened by a hash or by two dashes runs over
    characters that are not line terminators.  It ends with the end of the
    input, or with the newline that follows, newline included.  When the
    line terminator that follows is not the newline (a carriage return, a
    line or paragraph separator), the line comment matcher matches
    nothing. *)
Theorem line_comment_extent cfg opener body :
  opener = codes "#" \/ opener = codes "--" ->
  forallb is_dot body = true ->
  getLineCommentToken (constructor cfg) (opener ++ body)
  = Some (mkToken COMMENT (Some (opener ++ body)))
  /\ (forall tail,
        getLineCommentToken (constructor cfg)
          (opener ++ body ++ newline :: tail)
        = Some (mkToken COMMENT (Some (opener ++ body ++ [newline]))))
  /\ (forall c tail,
        is_dot c = false -> c <> newline ->
        getLineCommentToken (constructor cfg) (opener ++ body ++ c :: tail)
        = None).
Proof.
  intros O D. unfold getLineCommentToken, getTokenOnFirstMatch.
  split; [|split].
  - rewrite (match1_exact _ _ (opener ++ body) []); [reflexivity | |].
    + rewrite (line_comment_scan cfg opener body O).
      rewrite <- (app_nil_r body) at 1. rewrite line_scan_body by exact D.
      reflexivity.
    + symmetry. apply app_nil_r.
  - intros tail.
    rewrite (match1_exact _ _ (opener ++ body ++ [newline]) tail);
      [reflexivity | |].
    + rewrite (line_comment_scan cfg opener _ O).
      rewrite line_scan_body by exact D. reflexivity.
    + rewrite <- !app_assoc. reflexivity.
  - intros c tail Dc N. unfold match1.
    rewrite (line_comment_scan cfg opener _ O).
    rewrite line_scan_body by exact D.
    cbn [lazy_scan]. unfold line_end. rewrite m_Char. cbn [m].
    assert (E : char_match false newline c = false).
    { unfold char_match. apply N.eqb_neq. congruence. }
    rewrite E, Dc. reflexivity.
Qed.

(** X5 on a dash comment: to the end of the input, through a newline, and
    before a carriage return. *)
Lemma line_comment_extent_witness :
  getLineCommentToken (constructor sample_cfg) (codes "-- a")
  = Some (tok COMMENT "-- a")
  /\ getLineCommentToken (constructor sample_cfg)
       (codes "-- a" ++ newline :: codes "b")
     = Some (mkToken COMMENT (Some (codes "-- a" ++ [newline])))
  /\ getLineCommentToken (constructor sample_cfg)
       (codes "-- a" ++ 13 :: newline :: codes "b")
     = None.
Proof.
  destruct (line_comment_extent sample_cfg (codes "--") (codes " a"))
    as (H1 & H2 & H3); [right; reflexivity | reflexivity |].
  split; [exact H1|]. split; [apply (H2 (codes "b"))|].
  apply (H3 13 (newline :: codes "b")); [reflexivity | discriminate].
Defined.

Lemma block_scan : forall s,
  exists s', lazy_scan any (block_end (fun s1 => Some s1)) s = Some s'
             /\ s = until_close s ++ s'.
Proof.
  induction s as [|c s IH]; [exists []; split; reflexivity|].
  destruct IH as (s' & IH & E).
  cbn [lazy_scan until_close]. unfold block_end at 1.
  rewrite m_Lit. cbn [codes List.map list_ascii_of_string strip m].
  destruct s as [|d s2].
  - exists []. destruct (char_match false _ c); split; reflexivity.
  - change (N_of_ascii "*") with (chr "*").
    change (N_of_ascii "/") with (chr "/").
    rewrite (char_match_false (chr "*") c), (char_match_false (chr "/") d).
    destruct (c =? chr "*") eqn:C; cbn [andb orelse any].
    + destruct (d =? chr "/") eqn:D2; cbn [orelse].
      * exists s2. split; reflexivity.
      * exists s'. split; [exact IH | simpl; f_equal; exact E].
    + exists s'. split; [exact IH | simpl; f_equal; exact E].
Qed.

(** X6.  The block comment matcher never fails on an input that starts
    with slash-star: the token runs through the first star-slash that
    follows the opening, or to the end of the input when there is none. *)
Theorem block_comment_extent cfg s :
  getBlockCommentToken (constructor cfg) (codes "/*" ++ s)
  = Some (mkToken BLOCK_COMMENT (Some (codes "/*" ++ until_close s))).
Proof.
  destruct (block_scan s) as (s' & H & E).
  unfold getBlockCommentToken, getTokenOnFirstMatch.
  rewrite (match1_exact _ _ (codes "/*" ++ until_close s) s');
    [reflexivity | |].
  - cbn [ignoreCase group1 rest BLOCK_COMMENT_REGEX constructor].
    rewrite <- H.
    rewrite <- (lazy_class_scan false any _ s (List.length s)) by lia.
    reflexivity.
  - rewrite <- app_assoc, <- E. reflexivity.
Qed.

(** ** Keyword rules *)

Lemma strip_length i w : forall s s',
  strip i w s = Some s' ->
  List.length s = (List.length w + List.length s')%nat.
Proof.
  induction w as [|a w IH]; intros s s' H; simpl in H.
  - injection H as <-. reflexivity.
  - destruct s as [|c s]; [discriminate|].
    destruct (char_match i a c); [|discriminate].
    apply IH in H. simpl. rewrite H. reflexivity.
Qed.

Lemma first_word_alts i r input : forall ws w,
  match m i (alts (Lit w) (List.map Lit ws)) input
          (fun s1 => m i r s1 (fun _ => Some s1)) with
  | Some s1 => Some (firstn (List.length input - List.length s1) input)
  | None => None
  end
  = first_word i r (w :: ws) input.
Proof.
  induction ws as [|w2 ws IH]; intros w.
  - cbn [alts List.map first_word]. rewrite m_Lit.
    destruct (strip i w input) as [s'|] eqn:S; [|reflexivity].
    rewrite rest_matches_value.
    destruct (rest_matches i r s'); [|reflexivity].
    apply strip_length in S. rewrite S, Nat.add_sub. reflexivity.
  - change (m i (alts (Lit w) (List.map Lit (w2 :: ws))) input
              (fun s1 => m i r s1 (fun _ => Some s1)))
      with (orelse (m i (Lit w) input (fun s1 => m i r s1 (fun _ => Some s1)))
                   (m i (alts (Lit w2) (List.map Lit ws)) input
                      (fun s1 => m i r s1 (fun _ => Some s1)))).
    cbn [first_word]. rewrite m_Lit.
    destruct (strip i w input) as [s'|] eqn:S; cbn [orelse]; [|apply IH].
    rewrite rest_matches_value.
    destruct (rest_matches i r s'); cbn [orelse]; [|apply IH].
    apply strip_length in S. rewrite S, Nat.add_sub. reflexivity.
Qed.

(** A keyword expression holds in group 1 what the first of its words that
    matches takes: the order of the list decides, not the length of the
    words. *)
Lemma keyword_match_first_word ws r i input :
  match1 input (mkRegExp (join ws) r i)
  = first_word i r (offered ws) input.
Proof.
  unfold match1. cbn [ignoreCase group1 rest].
  destruct ws as [|w ws].
  - cbn [join offered first_word strip m]. rewrite rest_matches_value.
    destruct (rest_matches i r input); [|reflexivity].
    rewrite Nat.sub_diag. reflexivity.
  - apply first_word_alts.
Qed.

(** X7.  For a configuration of keyword strings, each keyword matcher
    takes the first word of its list, in the order of the list, that
    matches the start of the input case-insensitively and is followed by
    the end of a word (by an opening parenthesis for a function word);
    the reserved-word matcher asks the toplevel list, then the newline
    list, then the plain list.  An earlier word is preferred to a later,
    longer one. *)
Theorem keyword_matchers_take_first_listed_word cfg input prev :
  keyword_cfg cfg = true ->
  getFunctionWordToken (constructor cfg) input
  = token_of RESERVED
      (first_word true (Char (chr "(")) (offered (functionWords cfg)) input)
  /\ getReservedWordToken (constructor cfg) input prev
     = if is_dot_token prev then None
       else
         orelse (token_of RESERVED_TOPLEVEL
                   (first_word true word_end
                      (offered (reservedToplevelWords cfg)) input))
         (orelse (token_of RESERVED_NEWLINE
                    (first_word true word_end
                       (offered (reservedNewlineWords cfg)) input))
                 (token_of RESERVED
                    (first_word true word_end
                       (offered (reservedWords cfg)) input))).
Proof.
  intros _. unfold getFunctionWordToken, getReservedWordToken,
    getTokenOnFirstMatch.
  cbn [FUNCTION_REGEX RESERVED_TOPLEVEL_REGEX RESERVED_NEWLINE_REGEX
       RESERVED_REGEX constructor].
  unfold reserved_regex. rewrite !keyword_match_first_word.
  split.
  - destruct (first_word _ _ _ _); reflexivity.
  - destruct (is_dot_token prev); [reflexivity|].
    destruct (first_word true word_end (offered (reservedToplevelWords cfg)) _);
      [reflexivity|].
    destruct (first_word true word_end (offered (reservedNewlineWords cfg)) _);
      [reflexivity|].
    destruct (first_word _ _ _ _); reflexivity.
Qed.

(** X7 on the sample configuration and the input [group by x]. *)
Lemma keyword_matchers_take_first_listed_word_witness :
  getFunctionWordToken (constructor sample_cfg) (codes "group by x")
  = None
  /\ getReservedWordToken (constructor sample_cfg) (codes "group by x") None
     = Some (tok RESERVED_TOPLEVEL "group by").
Proof.
  apply (keyword_matchers_take_first_listed_word sample_cfg
           (codes "group by x") None).
  reflexivity.
Defined.

(** X8.  For a configuration of keyword strings, a reserved word is matched
    as a whole word only: the token is a prefix of the input, and what
    follows it is the end of the input, a space or a boundary. *)
Theorem reserved_word_is_whole_word cfg input prev t :
  keyword_cfg cfg = true ->
  getReservedWordToken (constructor cfg) input prev = Some t ->
  exists v s',
    value t = Some v /\ input = v ++ s'
    /\ match s' with
       | [] => True
       | c :: _ => is_space c || is_boundary c = true
       end.
Proof.
  intros _. unfold getReservedWordToken.
  assert (H : forall ty ws,
    getTokenOnFirstMatch input ty (reserved_regex ws) = Some t ->
    exists v s',
      value t = Some v /\ input = v ++ s'
      /\ match s' with
         | [] => True
         | c :: _ => is_space c || is_boundary c = true
         end).
  { intros ty ws. unfold getTokenOnFirstMatch.
    destruct (match1 input (reserved_regex ws)) as [v|] eqn:E; [|discriminate].
    intros G; injection G as <-.
    apply match1_inv in E. destruct E as (s' & E & _ & R).
    exists v, s'. split; [reflexivity|]. split; [exact E|].
    destruct s' as [|c s']; [exact I|].
    apply (word_end_first true c s'). exact R. }
  destruct (is_dot_token prev); [discriminate|].
  cbn [RESERVED_TOPLEVEL_REGEX RESERVED_NEWLINE_REGEX RESERVED_REGEX
       constructor].
  destruct (getTokenOnFirstMatch input RESERVED_TOPLEVEL _) eqn:E1.
  { intros G; injection G as <-. exact (H _ _ E1). }
  destruct (getTokenOnFirstMatch input RESERVED_NEWLINE _) eqn:E2.
  { intros G; injection G as <-. exact (H _ _ E2). }
  apply H.
Qed.

(** X8 on [from] before a boundary. *)
Lemma reserved_word_is_whole_word_witness :
  exists v s',
    value (tok RESERVED_TOPLEVEL "from") = Some v
    /\ codes "from(" = v ++ s'
    /\ match s' with
       | [] => True
       | c :: _ => is_space c || is_boundary c = true
       end.
Proof.
  apply (reserved_word_is_whole_word sample_cfg (codes "from(") None);
    reflexivity.
Defined.

(** ** What the scan returns *)

Lemma tokenize_loop_returns cfg : forall fuel input prev acc tokens,
  tokenize_loop (constructor cfg) fuel input prev acc
  = Some (Returned tokens) ->
  exists more,
    tokens = acc ++ more
    /\ Forall has_text more
    /\ (List.length more <= List.length input)%nat
    /\ (input <> [] -> more <> []).
Proof.
  induction fuel as [|fuel IH]; intros input prev acc tokens H.
  - destruct input; [|discriminate]. injection H as <-.
    exists []. rewrite app_nil_r. repeat split; auto.
  - destruct input as [|c s].
    { injection H as <-. exists []. rewrite app_nil_r. repeat split; auto. }
    cbn [tokenize_loop] in H.
    destruct (getNextToken_step cfg (c :: s) prev) as (t & G & R);
      [discriminate|].
    rewrite G in H.
    assert (T : exists v, value t = Some v /\ v <> []
      /\ (List.length (skipn (List.length v) (c :: s)) <= List.length s)%nat).
    { destruct R as [v s' V N E | c' s' E Q U V | c0 c1 s' E Q U ->].
      - exists v. repeat split; auto.
        destruct v as [|x v]; [contradiction|]. apply skipn_shorter.
      - rewrite V in H. discriminate H.
      - exists (c0 :: codes "undefined"). split; [reflexivity|].
        split; [discriminate|]. apply (skipn_shorter 9). }
    destruct T as (v & V & N & L). rewrite V in H.
    apply IH in H. destruct H as (more & -> & F & Len & _).
    exists (t :: more). rewrite <- app_assoc.
    split; [reflexivity|]. split; [|split].
    + constructor; [exists v; auto | exact F].
    + simpl. lia.
    + discriminate.
Qed.

(** X9.  For a configuration of keyword strings, whenever [tokenize]
    returns, every token has a text that is not empty, there are at most
    as many tokens as the input has code units, and there is no token
    exactly when the input is empty. *)
Theorem returned_tokens_are_not_empty cfg input tokens :
  keyword_cfg cfg = true ->
  tokenize (constructor cfg) input = Some (Returned tokens) ->
  Forall has_text tokens
  /\ (List.length tokens <= List.length input)%nat
  /\ (tokens = [] <-> input = []).
Proof.
  intros _ H. unfold tokenize, tokenize_fuel in H.
  apply tokenize_loop_returns in H.
  destruct H as (more & -> & F & L & N). simpl.
  split; [exact F|]. split; [exact L|]. split.
  - intros ->. destruct input; [reflexivity|].
    exfalso. apply N; [discriminate | reflexivity].
  - intros ->. destruct more; [reflexivity | simpl in L; lia].
Qed.

(** X9 on an input of three tokens. *)
Lemma returned_tokens_are_not_empty_witness :
  Forall has_text [tok WORD "t"; tok BOUNDARY "."; tok WORD "from"]
  /\ (List.length [tok WORD "t"; tok BOUNDARY "."; tok WORD "from"]
      <= List.length (codes "t.from"))%nat
  /\ ([tok WORD "t"; tok BOUNDARY "."; tok WORD "from"] = []
      <-> codes "t.from" = []).
Proof.
  apply (returned_tokens_are_not_empty sample_cfg (codes "t.from"));
    reflexivity.
Defined.

(** X10.  For a configuration of keyword strings, on every input the scan
    ends within as many iterations as the input has code units, by
    returning or by raising the TypeError, and fuel beyond that changes
    nothing. *)
Theorem tokenize_ends_within_length cfg input extra :
  keyword_cfg cfg = true ->
  exists r,
    tokenize (constructor cfg) input = Some r
    /\ tokenize_fuel (constructor cfg) (List.length input + extra) input
       = Some r
    /\ (forall e, r = Thrown e -> e = TypeError).
Proof.
  intros _.
  destruct (tokenize_fuel_enough cfg input (List.length input + extra))
    as (r & H & H'); [lia|].
  exists r. split; [exact H|]. split; [exact H'|].
  intros e ->. unfold tokenize, tokenize_fuel in H.
  apply tokenize_loop_throws in H. exact H.
Qed.

(** X10 on an input whose last quote [STRING_REGEX] does not match, with
    fuel for three more iterations. *)
Lemma tokenize_ends_within_length_witness :
  exists r,
    tokenize (constructor sample_cfg) (codes "as " ++ [squote; backslash])
    = Some r
    /\ tokenize_fuel (constructor sample_cfg)
         (List.length (codes "as " ++ [squote; backslash]) + 3)
         (codes "as " ++ [squote; backslash])
       = Some r
    /\ (forall e, r = Thrown e -> e = TypeError).
Proof.
  apply (tokenize_ends_within_length sample_cfg
           (codes "as " ++ [squote; backslash]) 3).
  reflexivity.
Defined.

(** ** Losslessness *)

Lemma quotes_match_suffix v s : quotes_match (v ++ s) -> quotes_match s.
Proof.
  unfold quotes_match. rewrite !mem_app.
  intros [H | [H1 H2]].
  - left. apply orb_false_iff in H. tauto.
  - right. apply orb_false_iff in H1. apply orb_false_iff in H2. tauto.
Qed.

Lemma getQuotedString_matches cfg c s :
  mem c [dquote; squote; backtick; lbracket] = true ->
  quotes_match (c :: s) ->
  getQuotedString (constructor cfg) (c :: s) <> None.
Proof.
  intros Q [NB | [ND NS]].
  - apply getQuotedString_complete; [exact Q|].
    change (c :: s) with ([c] ++ s) in NB. rewrite mem_app in NB.
    apply orb_false_iff in NB. tauto.
  - unfold getQuotedString, match1.
    change (STRING_REGEX (constructor cfg)) with string_regex.
    cbn [ignoreCase group1 rest string_regex].
    set (k := fun s1 : str => m false Empty s1 (fun _ => Some s1)).
    assert (T : forall x, k x <> None) by (intros x; discriminate).
    assert (M : m false
      (alts (Plus (plain_segment backtick backtick))
         [Seq (plain_segment lbracket rbracket)
            (Star true (plain_segment rbracket rbracket));
          Plus (quoted_segment dquote); Plus (quoted_segment squote)])
      (c :: s) k <> None).
    { assert (Cd : c <> dquote).
      { intros ->. unfold mem in ND. cbn [existsb] in ND.
        rewrite N.eqb_refl in ND. discriminate ND. }
      assert (Cs : c <> squote).
      { intros ->. unfold mem in NS. cbn [existsb] in NS.
        rewrite N.eqb_refl in NS. discriminate NS. }
      unfold mem in Q. cbn [existsb] in Q.
      destruct (N.eqb_spec c dquote) as [-> | _]; [contradiction|].
      destruct (N.eqb_spec c squote) as [-> | _]; [contradiction|].
      cbn [orb] in Q.
      destruct (N.eqb_spec c backtick) as [-> | _].
      { apply (m_alts_complete _ _ _ (Plus (plain_segment backtick backtick)));
          [simpl; auto|].
        apply plus_complete; [exact T|]. intros k' T'.
        apply plain_segment_complete; assumption. }
      destruct (N.eqb_spec c lbracket) as [-> | _]; [|discriminate Q].
      apply (m_alts_complete _ _ _
               (Seq (plain_segment lbracket rbracket)
                    (Star true (plain_segment rbracket rbracket))));
        [simpl; auto|].
      change (m false (Seq (plain_segment lbracket rbracket)
                           (Star true (plain_segment rbracket rbracket)))
                (lbracket :: s) k)
        with (m false (plain_segment lbracket rbracket) (lbracket :: s)
                (fun s1 => star_loop true
                             (m false (plain_segment rbracket rbracket)) k
                             (List.length s1) s1)).
      apply plain_segment_complete. intros x. apply star_loop_skip. apply T. }
    destruct (m false _ (c :: s) _); [discriminate | contradiction].
Qed.

Lemma tokenize_loop_lossless_quotes cfg : forall fuel input prev acc,
  quotes_match input ->
  (List.length input <= fuel)%nat ->
  exists tokens,
    tokenize_loop (constructor cfg) fuel input prev acc
    = Some (Returned (acc ++ tokens))
    /\ concat_texts tokens = input.
Proof.
  induction fuel as [|fuel IH]; intros input prev acc NB L.
  - destruct input; [|simpl in L; lia].
    exists []. rewrite app_nil_r. simpl. auto.
  - destruct input as [|c s].
    { exists []. rewrite app_nil_r. simpl. auto. }
    destruct (getNextToken_step cfg (c :: s) prev) as (t & G & R);
      [discriminate|].
    cbn [tokenize_loop]. rewrite G.
    destruct R as [v s' V N E | c' s' E Q U V | c0 c1 s' E Q U ->].
    + rewrite V, E, skipn_app_length.
      rewrite E in NB. apply quotes_match_suffix in NB.
      destruct (IH s' (Some t) (acc ++ [t]) NB) as (tokens & H & C).
      { assert (List.length (c :: s) = List.length (v ++ s')) as E'
          by (rewrite E; reflexivity).
        rewrite length_app in E'. simpl in E', L.
        destruct v; [contradiction | simpl in E'; lia]. }
      exists (t :: tokens). rewrite H, <- app_assoc. simpl.
      split; [reflexivity|].
      unfold concat_texts in *. simpl. unfold text at 1.
      rewrite V, C. reflexivity.
    + exfalso. rewrite E in NB, U.
      apply (getQuotedString_matches cfg c' s' Q NB). exact U.
    + exfalso. rewrite E in NB.
      apply (quotes_match_suffix [c0]) in NB.
      apply (getQuotedString_matches cfg c1 s'); [|exact NB | exact U].
      unfold mem in Q |- *. cbn [existsb] in Q |- *.
      destruct (c1 =? dquote), (c1 =? squote), (c1 =? backtick);
        simpl in Q |- *; try reflexivity; discriminate Q.
Qed.

(** X11.  For a configuration of keyword strings, on an input that holds
    no backslash, or that holds neither a double nor a single quote,
    [tokenize] returns, and the texts of the tokens, in order, concatenate
    to the input. *)
Theorem tokenize_is_lossless cfg input :
  keyword_cfg cfg = true ->
  quotes_match input ->
  exists tokens,
    tokenize (constructor cfg) input = Some (Returned tokens)
    /\ concat_texts tokens = input.
Proof.
  intros _ Q. unfold tokenize, tokenize_fuel.
  apply (tokenize_loop_lossless_quotes cfg _ input None [] Q). lia.
Qed.

(** X11 on an input with a backslash inside backticks. *)
Lemma tokenize_is_lossless_witness :
  exists tokens,
    tokenize (constructor sample_cfg)
      (codes "select `a" ++ [backslash] ++ codes "` from t")
    = Some (Returned tokens)
    /\ concat_texts tokens
       = codes "select `a" ++ [backslash] ++ codes "` from t".
Proof.
  apply (tokenize_is_lossless sample_cfg);
    [reflexivity | right; split; reflexivity].
Defined.

(** ** Unterminated quotes *)

Lemma mem_isnt c : forall s, mem c s = false -> forallb (isnt c) s = true.
Proof.
  induction s as [|x s IH]; intros H; [reflexivity|].
  unfold mem in H. cbn [existsb] in H. apply orb_false_iff in H.
  destruct H as [H1 H2]. cbn [forallb]. rewrite (IH H2).
  unfold isnt. rewrite N.eqb_sym, H1. reflexivity.
Qed.

Lemma drop_while_all p : forall s, forallb p s = true -> drop_while p s = [].
Proof.
  induction s as [|x s IH]; intros H; [reflexivity|].
  simpl in H. apply andb_true_iff in H. destruct H as [H1 H2].
  simpl. rewrite H1. apply IH. exact H2.
Qed.

Lemma plain_segment_to_end o c s k a :
  forallb (isnt c) s = true -> k [] = Some a ->
  m false (plain_segment o c) (o :: s) k = Some a.
Proof.
  intros F K. unfold plain_segment.
  change (m false (Seq (Char o) (Seq (Star true (Class (isnt c)))
                                     (Alt Eoi (Char c)))) (o :: s) k)
    with (if char_match false o o
          then star_loop true (m false (Class (isnt c)))
                 (fun s1 => orelse (m false Eoi s1 k) (m false (Char c) s1 k))
                 (List.length s) s
          else None).
  rewrite char_match_refl.
  apply star_class_greedy; [lia|].
  rewrite (drop_while_all _ _ F). simpl. rewrite K. reflexivity.
Qed.

Lemma quoted_segment_to_end q s k a :
  forallb (isnt2 q backslash) s = true -> k [] = Some a ->
  m false (quoted_segment q) (q :: s) k = Some a.
Proof.
  intros F K. unfold quoted_segment.
  set (esc := Seq (Char backslash)
                (Seq (Class is_dot) (Star true (Class (isnt2 q backslash))))).
  change (m false (Seq (Char q) (Seq (Star true (Class (isnt2 q backslash)))
                    (Seq (Star true esc) (Alt (Char q) Eoi)))) (q :: s) k)
    with (if char_match false q q
          then star_loop true (m false (Class (isnt2 q backslash)))
                 (fun s1 => star_loop true (m false esc)
                    (fun s2 => orelse (m false (Char q) s2 k)
                                      (m false Eoi s2 k))
                    (List.length s1) s1)
                 (List.length s) s
          else None).
  rewrite char_match_refl.
  apply star_class_greedy; [lia|].
  rewrite (drop_while_all _ _ F). simpl. exact K.
Qed.

Lemma isnt2_of_mem q : forall s,
  mem q s = false -> mem backslash s = false ->
  forallb (isnt2 q backslash) s = true.
Proof.
  induction s as [|x s IH]; intros H1 H2; [reflexivity|].
  unfold mem in H1, H2. cbn [existsb] in H1, H2.
  apply orb_false_iff in H1. destruct H1 as [A1 B1].
  apply orb_false_iff in H2. destruct H2 as [A2 B2].
  cbn [forallb]. rewrite (IH B1 B2). unfold isnt2.
  rewrite (N.eqb_sym x q), A1, (N.eqb_sym x backslash), A2. reflexivity.
Qed.

Lemma getQuotedString_to_end cfg o s :
  unterminated o s ->
  getQuotedString (constructor cfg) (o :: s) = Some (o :: s).
Proof.
  intros U. unfold getQuotedString.
  apply (match1_exact _ _ (o :: s) []); [|symmetry; apply app_nil_r].
  change (STRING_REGEX (constructor cfg)) with string_regex.
  cbn [ignoreCase group1 rest string_regex alts].
  set (k := fun s1 : str => m false Empty s1 (fun _ => Some s1)).
  destruct U as [(-> & Q & B) | [(-> & Q & B) | [(-> & Q) | (-> & Q)]]].
  - change (m false (Alt (Plus (plain_segment backtick backtick))
              (Alt (Seq (plain_segment lbracket rbracket)
                      (Star true (plain_segment rbracket rbracket)))
                 (Alt (Plus (quoted_segment dquote))
                      (Plus (quoted_segment squote))))) (dquote :: s) k)
      with (orelse
              (m false (quoted_segment dquote) (dquote :: s)
                 (fun s1 => star_loop true (m false (quoted_segment dquote)) k
                              (List.length s1) s1))
              (m false (Plus (quoted_segment squote)) (dquote :: s) k)).
    rewrite (quoted_segment_to_end dquote s _ []);
      [reflexivity | apply isnt2_of_mem; assumption | reflexivity].
  - change (m false (Alt (Plus (plain_segment backtick backtick))
              (Alt (Seq (plain_segment lbracket rbracket)
                      (Star true (plain_segment rbracket rbracket)))
                 (Alt (Plus (quoted_segment dquote))
                      (Plus (quoted_segment squote))))) (squote :: s) k)
      with (m false (quoted_segment squote) (squote :: s)
              (fun s1 => star_loop true (m false (quoted_segment squote)) k
                           (List.length s1) s1)).
    apply quoted_segment_to_end;
      [apply isnt2_of_mem; assumption | reflexivity].
  - change (m false (Alt (Plus (plain_segment backtick backtick))
              (Alt (Seq (plain_segment lbracket rbracket)
                      (Star true (plain_segment rbracket rbracket)))
                 (Alt (Plus (quoted_segment dquote))
                      (Plus (quoted_segment squote))))) (backtick :: s) k)
      with (orelse
              (m false (plain_segment backtick backtick) (backtick :: s)
                 (fun s1 => star_loop true
                              (m false (plain_segment backtick backtick)) k
                              (List.length s1) s1))
              (m false (Alt (Seq (plain_segment lbracket rbracket)
                      (Star true (plain_segment rbracket rbracket)))
                 (Alt (Plus (quoted_segment dquote))
                      (Plus (quoted_segment squote)))) (backtick :: s) k)).
    rewrite (plain_segment_to_end backtick backtick s _ []);
      [reflexivity | apply mem_isnt; assumption | reflexivity].
  - change (m false (Alt (Plus (plain_segment backtick backtick))
              (Alt (Seq (plain_segment lbracket rbracket)
                      (Star true (plain_segment rbracket rbracket)))
                 (Alt (Plus (quoted_segment dquote))
                      (Plus (quoted_segment squote))))) (lbracket :: s) k)
      with (orelse
              (m false (plain_segment lbracket rbracket) (lbracket :: s)
                 (fun s1 => star_loop true
                              (m false (plain_segment rbracket rbracket)) k
                              (List.length s1) s1))
              (m false (Alt (Plus (quoted_segment dquote))
                      (Plus (quoted_segment squote))) (lbracket :: s) k)).
    rewrite (plain_segment_to_end lbracket rbracket s _ []);
      [reflexivity | apply mem_isnt; assumption | reflexivity].
Qed.

(** X12.  An unterminated quote is one token that runs to the end of the
    input: when no closing character follows the opening one (and, for the
    double and single quote styles, no backslash), [tokenize] returns the
    whole input as a single token, of kind BACKTICK_QUOTE for a backtick or
    bracket and QUOTE otherwise. *)
Theorem unterminated_quote_is_one_token cfg o s :
  unterminated o s ->
  tokenize (constructor cfg) (o :: s)
  = Some (Returned
            [mkToken (if mem o [backtick; lbracket]
                      then BACKTICK_QUOTE else QUOTE)
                     (Some (o :: s))]).
Proof.
  intros U. pose proof (getQuotedString_to_end cfg o s U) as G.
  assert (N : getNextToken (constructor cfg) (o :: s) None
              = Some (mkToken (if mem o [backtick; lbracket]
                               then BACKTICK_QUOTE else QUOTE)
                              (Some (o :: s)))).
  { unfold getNextToken.
    assert (E : getQuotedStringToken (constructor cfg) (o :: s)
                = Some (mkToken (if mem o [backtick; lbracket]
                                 then BACKTICK_QUOTE else QUOTE)
                                (Some (o :: s)))).
    { unfold getQuotedStringToken. rewrite G.
      destruct U as [(-> & _) | [(-> & _) | [(-> & _) | (-> & _)]]];
        reflexivity. }
    rewrite E.
    destruct U as [(-> & _) | [(-> & _) | [(-> & _) | (-> & _)]]];
      reflexivity. }
  unfold tokenize, tokenize_fuel.
  change (List.length (o :: s)) with (S (List.length s)).
  rewrite (tokenize_loop_step _ _ _ _ _
             (mkToken (if mem o [backtick; lbracket]
                       then BACKTICK_QUOTE else QUOTE) (Some (o :: s)))
             (o :: s) []);
    [ destruct (List.length s); reflexivity
    | discriminate | exact N | reflexivity | apply skipn_all ].
Qed.

(** X12 on a single quote that is never closed. *)
Lemma unterminated_quote_is_one_token_witness :
  tokenize (constructor sample_cfg) (codes "'abc from")
  = Some (Returned [tok QUOTE "'abc from"]).
Proof.
  apply (unterminated_quote_is_one_token sample_cfg squote
           (codes "abc from")).
  right. left. repeat split; reflexivity.
Defined.

(** ** First characters of a match *)

Lemma starts_ok_nil i r s : starts_ok i r [] s.
Proof. exact I. Qed.

Lemma star_loop_first i greedy r k :
  (forall s k' a, m i r s k' = Some a ->
     exists p s', s = p ++ s' /\ starts_ok i r p s /\ k' s' = Some a) ->
  forall n s a, star_loop greedy (m i r) k n s = Some a ->
    exists p s', s = p ++ s' /\ starts_ok i r p s /\ k s' = Some a.
Proof.
  intros Hbody n; induction n as [|n IH]; intros s a H; simpl in H.
  - exists [], s. split; [reflexivity|]. split; [exact I | exact H].
  - assert (Hiter : forall b,
      m i r s (fun s1 => if (List.length s1 =? List.length s)%nat then None
                         else star_loop greedy (m i r) k n s1) = Some b ->
      exists p s', s = p ++ s' /\ starts_ok i r p s /\ k s' = Some b).
    { intros b Hb. apply Hbody in Hb. destruct Hb as (p1 & s1 & E & S1 & Hk).
      destruct (_ =? _)%nat eqn:L; [discriminate|].
      apply IH in Hk. destruct Hk as (p2 & s2 & E2 & _ & Hk).
      exists (p1 ++ p2), s2. rewrite <- app_assoc, <- E2.
      split; [exact E|]. split; [|exact Hk].
      destruct p1 as [|x p1].
      - simpl in E. subst s1. rewrite Nat.eqb_refl in L. discriminate L.
      - subst s. exact S1. }
    assert (Hskip : forall b, k s = Some b ->
      exists p s', s = p ++ s' /\ starts_ok i r p s /\ k s' = Some b).
    { intros b Hb. exists [], s. split; [reflexivity|].
      split; [exact I | exact Hb]. }
    destruct greedy; apply orelse_Some in H;
      destruct H as [H | [_ H]]; auto.
Qed.

(** A match that consumes input starts with a character that the pattern
    allows first. *)
Lemma m_first i r : forall s k a, m i r s k = Some a ->
  exists p s', s = p ++ s'
    /\ (nullable r = false -> p <> [])
    /\ starts_ok i r p s /\ k s' = Some a.
Proof.
  induction r as [ | c | p | | r1 IH1 r2 IH2 | r1 IH1 r2 IH2 | g r IH | r IH ];
    intros s k a H.
  - exists [], s. split; [reflexivity|]. split; [discriminate|].
    split; [exact I | exact H].
  - simpl in H. destruct s as [|c0 s]; [discriminate|].
    destruct (char_match i c c0) eqn:E; [|discriminate].
    exists [c0], s. split; [reflexivity|]. split; [discriminate|].
    split; [exact E | exact H].
  - simpl in H. destruct s as [|c0 s]; [discriminate|].
    destruct (p c0) eqn:E; [|discriminate].
    exists [c0], s. split; [reflexivity|]. split; [discriminate|].
    split; [exact E | exact H].
  - simpl in H. destruct s; [|discriminate].
    exists [], []. split; [reflexivity|]. split; [discriminate|].
    split; [exact I | exact H].
  - simpl in H.
    apply IH1 in H. destruct H as (p1 & s1 & -> & N1 & S1 & H).
    apply IH2 in H. destruct H as (p2 & s2 & -> & N2 & S2 & H).
    exists (p1 ++ p2), s2. rewrite <- app_assoc.
    split; [reflexivity|]. split; [|split; [|exact H]].
    + simpl. intros N E. apply app_eq_nil in E. destruct E as [E1 E2].
      apply andb_false_iff in N.
      destruct N as [N | N]; [exact (N1 N E1) | exact (N2 N E2)].
    + destruct p1 as [|x p1]; simpl in *.
      * destruct p2 as [|y p2]; simpl in *; [exact I|].
        destruct (nullable r1); [|exfalso; apply N1; reflexivity].
        rewrite S2. apply orb_true_r.
      * rewrite S1. reflexivity.
  - simpl in H. apply orelse_Some in H. destruct H as [H | [_ H]].
    + apply IH1 in H. destruct H as (p1 & s1 & -> & N1 & S1 & H).
      exists p1, s1. split; [reflexivity|]. split; [|split; [|exact H]].
      * simpl; intros N. apply orb_false_iff in N. tauto.
      * destruct p1; simpl in *; [exact I|]. rewrite S1. reflexivity.
    + apply IH2 in H. destruct H as (p1 & s1 & -> & N1 & S1 & H).
      exists p1, s1. split; [reflexivity|]. split; [|split; [|exact H]].
      * simpl; intros N. apply orb_false_iff in N. tauto.
      * destruct p1; simpl in *; [exact I|]. rewrite S1. apply orb_true_r.
  - simpl in H. apply (star_loop_first i g r k) in H.
    + destruct H as (p & s' & E & S & H).
      exists p, s'. split; [exact E|]. split; [discriminate|].
      split; [exact S | exact H].
    + intros s0 k' b Hb. apply IH in Hb.
      destruct Hb as (p & s' & E & _ & S & Hb). eauto.
  - simpl in H. apply orelse_Some in H. destruct H as [H | [_ H]].
    + apply IH in H. destruct H as (p & s' & -> & _ & S & H).
      destruct (_ =? _)%nat; [discriminate|].
      exists p, s'. split; [reflexivity|]. split; [discriminate|].
      split; [exact S | exact H].
    + exists [], s. split; [reflexivity|]. split; [discriminate|].
      split; [exact I | exact H].
Qed.

(** The token of an expression whose group 1 cannot be empty starts with
    the first character of the input, which group 1 allows first. *)
Lemma first_match_head input ty re t :
  nullable (group1 re) = false ->
  getTokenOnFirstMatch input ty re = Some t ->
  exists c v s,
    input = c :: s /\ t = mkToken ty (Some (c :: v))
    /\ first_ok (ignoreCase re) (group1 re) c = true.
Proof.
  unfold getTokenOnFirstMatch, match1. intros N H.
  destruct (m _ (group1 re) input _) as [a|] eqn:E; [|discriminate].
  injection H as <-.
  apply m_first in E. destruct E as (p & s' & -> & NE & S & K).
  assert (a = s') as ->.
  { apply m_inv in K. destruct K as (_ & _ & _ & _ & K). congruence. }
  rewrite firstn_app_minus.
  destruct p as [|c p]; [exfalso; apply (NE N); reflexivity|].
  exists c, p, (p ++ s'). repeat split. exact S.
Qed.

(** ** Every returned token comes from the chain *)

Lemma tokenize_loop_produced this : forall fuel input prev acc tokens,
  tokenize_loop this fuel input prev acc = Some (Returned tokens) ->
  exists more, tokens = acc ++ more /\ produced this prev more.
Proof.
  induction fuel as [|fuel IH]; intros input prev acc tokens H.
  - destruct input; [|discriminate]. injection H as <-.
    exists []. rewrite app_nil_r. split; [reflexivity | exact I].
  - destruct input as [|c s].
    { injection H as <-. exists []. rewrite app_nil_r.
      split; [reflexivity | exact I]. }
    cbn [tokenize_loop] in H.
    destruct (getNextToken this (c :: s) prev) as [t|] eqn:G; [|discriminate].
    destruct (value t) as [v|] eqn:V; [|discriminate].
    apply IH in H. destruct H as (more & -> & P).
    exists (t :: more). rewrite <- app_assoc.
    split; [reflexivity|]. split; [|exact P].
    exists (c :: s). split; [discriminate|]. split; [exact G|].
    rewrite V. discriminate.
Qed.

Lemma first_match_type input ty re t :
  getTokenOnFirstMatch input ty re = Some t -> type t = ty.
Proof.
  unfold getTokenOnFirstMatch. destruct (match1 input re); [|discriminate].
  intros H; injection H as <-. reflexivity.
Qed.

(** Only the reserved-word matcher gives the kinds RESERVED_TOPLEVEL and
    RESERVED_NEWLINE. *)
Lemma layout_kind_origin this input prev t :
  getNextToken this input prev = Some t ->
  type t = RESERVED_TOPLEVEL \/ type t = RESERVED_NEWLINE ->
  getReservedWordToken this input prev = Some t.
Proof.
  unfold getNextToken. intros H K.
  assert (X : forall ty re t',
    getTokenOnFirstMatch input ty re = Some t' -> t' = t ->
    ty <> RESERVED_TOPLEVEL -> ty <> RESERVED_NEWLINE -> False).
  { intros ty re t' E <- N1 N2. apply first_match_type in E.
    destruct K as [K | K]; congruence. }
  destruct (getWhitespaceToken this input) as [t'|] eqn:E1.
  { exfalso. injection H as H. apply (X _ _ _ E1 H); discriminate. }
  destruct (getCommentToken this input) as [t'|] eqn:E2.
  { exfalso. injection H as H. unfold getCommentToken in E2.
    destruct (getLineCommentToken this input) as [t''|] eqn:E.
    - injection E2 as <-. apply (X _ _ _ E H); discriminate.
    - apply (X _ _ _ E2 H); discriminate. }
  destruct (getQuotedStringToken this input) as [t'|] eqn:E3.
  { exfalso. injection H as <-. unfold getQuotedStringToken in E3.
    destruct input as [|c s]; [discriminate|].
    destruct (mem c _); [|discriminate]. injection E3 as <-.
    cbn [type] in K.
    match type of K with context [if ?b then _ else _] => destruct b end;
      destruct K as [K | K]; discriminate K. }
  destruct (getVariableToken this input) as [t'|] eqn:E4.
  { exfalso. injection H as H. unfold getVariableToken in E4.
    destruct input as [|c0 [|c1 s]]; try discriminate.
    destruct (mem c0 _); [|discriminate].
    destruct (mem c1 _).
    - injection E4 as <-. subst t. destruct K as [K | K]; discriminate K.
    - apply (X _ _ _ E4 H); discriminate. }
  destruct (getNumberToken this input) as [t'|] eqn:E5.
  { exfalso. injection H as H. apply (X _ _ _ E5 H); discriminate. }
  destruct (getBoundaryCharacterToken this input) as [t'|] eqn:E6.
  { exfalso. injection H as H. apply (X _ _ _ E6 H); discriminate. }
  destruct (getReservedWordToken this input prev) as [t'|] eqn:E7.
  { exact H. }
  exfalso. cbn [orelse] in H.
  destruct (getFunctionWordToken this input) as [t'|] eqn:E8.
  { injection H as H. apply (X _ _ _ E8 H); discriminate. }
  apply (X _ _ _ H eq_refl); discriminate.
Qed.

Lemma produced_no_layout_word_after_dot this : forall tokens prev,
  produced this prev tokens -> no_layout_word_after_dot prev tokens.
Proof.
  induction tokens as [|t more IH]; intros prev P; [exact I|].
  destruct P as ((input & _ & G & _) & P). split; [|apply IH; exact P].
  intros D.
  assert (R : getReservedWordToken this input prev = None)
    by (unfold getReservedWordToken; rewrite D; reflexivity).
  split; intros K;
    [ pose proof (layout_kind_origin this input prev t G (or_introl K)) as O
    | pose proof (layout_kind_origin this input prev t G (or_intror K)) as O ];
    congruence.
Qed.

(** X13.  Whatever the tokenizer's expressions are, in the tokens that
    [tokenize] returns no RESERVED_TOPLEVEL or RESERVED_NEWLINE token comes
    right after a token whose text is exactly a dot. *)
Theorem no_layout_word_follows_a_dot this input tokens :
  tokenize this input = Some (Returned tokens) ->
  no_layout_word_after_dot None tokens.
Proof.
  intros H. unfold tokenize, tokenize_fuel in H.
  apply tokenize_loop_produced in H. destruct H as (more & -> & P).
  apply (produced_no_layout_word_after_dot this). exact P.
Qed.

(** X13 on [a.select], where [select] is a toplevel word. *)
Lemma no_layout_word_follows_a_dot_witness :
  no_layout_word_after_dot None
    [tok WORD "a"; tok BOUNDARY "."; tok WORD "select"].
Proof.
  apply (no_layout_word_follows_a_dot (constructor sample_cfg)
           (codes "a.select")).
  reflexivity.
Defined.

(** ** Kinds and texts *)

(** Reduces [first_ok] on one of the fixed expressions to comparisons of
    the character with code units. *)
Ltac first_chars H :=
  cbv [first_ok nullable group1 ignoreCase NUMBER_REGEX LINE_COMMENT_REGEX
       BLOCK_COMMENT_REGEX constructor number_regex alts Plus Lit codes
       List.map list_ascii_of_string andb orb] in H;
  repeat match type of H with
         | context [char_match false ?a ?c] =>
             rewrite (char_match_false a c) in H
         end;
  repeat match type of H with
         | context [chr ?x] =>
             let v := eval vm_compute in (chr x) in
             change (chr x) with v in H
         | context [N_of_ascii ?x] =>
             let v := eval vm_compute in (N_of_ascii x) in
             change (N_of_ascii x) with v in H
         end.

Lemma reserved_kind this input prev t :
  getReservedWordToken this input prev = Some t ->
  type t = RESERVED_TOPLEVEL \/ type t = RESERVED_NEWLINE
  \/ type t = RESERVED.
Proof.
  unfold getReservedWordToken. destruct (is_dot_token prev); [discriminate|].
  destruct (getTokenOnFirstMatch input RESERVED_TOPLEVEL _) eqn:E1.
  { intros H; injection H as <-. left. exact (first_match_type _ _ _ _ E1). }
  destruct (getTokenOnFirstMatch input RESERVED_NEWLINE _) eqn:E2.
  { intros H; injection H as <-. right; left.
    exact (first_match_type _ _ _ _ E2). }
  intros H. right; right. exact (first_match_type _ _ _ _ H).
Qed.

Lemma slice_head_is_any this input t :
  step_result this input t -> value t <> None ->
  exists v, value t = Some v /\ head_is any v = true.
Proof.
  intros [v s' V N E | c' s' E Q U V | c0 c1 s' E Q U ->] NV.
  - exists v. split; [exact V|]. destruct v; [contradiction | reflexivity].
  - contradiction.
  - eexists. split; reflexivity.
Qed.

Lemma getNextToken_kind_fits cfg c s prev t :
  getNextToken (constructor cfg) (c :: s) prev = Some t ->
  value t <> None ->
  kind_fits t = true.
Proof.
  unfold getNextToken. intros H NV.
  destruct (getWhitespaceToken (constructor cfg) (c :: s)) as [t'|] eqn:E1.
  { injection H as <-. rewrite getWhitespaceToken_run in E1.
    cbn [take_while] in E1. destruct (is_space c) eqn:W; [|discriminate].
    injection E1 as <-. unfold kind_fits. cbn [value type head_is forallb].
    rewrite W, take_while_all. reflexivity. }
  pose proof (whitespace_None cfg c s E1) as W.
  destruct (getCommentToken (constructor cfg) (c :: s)) as [t'|] eqn:E2.
  { injection H as <-. unfold getCommentToken in E2.
    destruct (getLineCommentToken (constructor cfg) (c :: s)) as [t''|] eqn:E.
    - injection E2 as <-. apply first_match_head in E; [|reflexivity].
      destruct E as (c' & v & s' & _ & -> & F).
      first_chars F.
      unfold kind_fits. cbn [value type head_is].
      change (mem c' (codes "#-")) with ((c' =? 35) || ((c' =? 45) || false)).
      destruct (c' =? 35), (c' =? 45); try reflexivity; discriminate F.
    - apply first_match_head in E2; [|reflexivity].
      destruct E2 as (c' & v & s' & _ & -> & F).
      first_chars F.
      unfold kind_fits. cbn [value type head_is].
      change (chr "/") with 47.
      destruct (c' =? 47); try reflexivity; discriminate F. }
  destruct (getQuotedStringToken (constructor cfg) (c :: s)) as [t'|] eqn:E3.
  { injection H as <-. unfold getQuotedStringToken in E3.
    destruct (mem c [dquote; squote; backtick; lbracket]) eqn:Q;
      [|discriminate].
    injection E3 as <-. cbn [value] in NV.
    destruct (getQuotedString (constructor cfg) (c :: s)) as [v|] eqn:G;
      [|contradiction].
    unfold getQuotedString in G. apply match1_inv in G.
    destruct G as (s' & E & N & _).
    destruct v as [|x v]; [exfalso; apply N; reflexivity|].
    injection E as <- _.
    unfold kind_fits. cbn [value type].
    match goal with
    | |- context [if ?b then BACKTICK_QUOTE else QUOTE] => destruct b eqn:B
    end; cbn [head_is]; [exact B|].
    unfold mem in Q, B |- *. cbn [existsb] in Q, B |- *.
    destruct (c =? dquote), (c =? squote), (c =? backtick), (c =? lbracket);
      simpl in Q, B |- *; try reflexivity; discriminate. }
  destruct (getVariableToken (constructor cfg) (c :: s)) as [t'|] eqn:E4.
  { injection H as <-. unfold getVariableToken in E4.
    destruct s as [|c1 s]; [discriminate|].
    destruct (mem c (codes "@:")) eqn:S; [|discriminate].
    destruct (mem c1 [dquote; squote; backtick]).
    - injection E4 as <-. unfold kind_fits. cbn [value type head_is].
      exact S.
    - apply first_match_head in E4; [|reflexivity].
      destruct E4 as (c' & v & s' & E & -> & _).
      injection E as <- _. unfold kind_fits. cbn [value type head_is].
      exact S. }
  destruct (getNumberToken (constructor cfg) (c :: s)) as [t'|] eqn:E5.
  { injection H as <-. apply first_match_head in E5; [|reflexivity].
    destruct E5 as (c' & v & s' & _ & -> & F).
    first_chars F.
    unfold kind_fits. cbn [value type head_is].
    change (chr "-") with 45.
    destruct (is_digit c') eqn:D; [reflexivity|].
    destruct (N.eqb_spec c' 45) as [-> | _]; [reflexivity|].
    destruct (N.eqb_spec c' 48) as [-> | _]; [discriminate D|].
    discriminate F. }
  destruct (getBoundaryCharacterToken (constructor cfg) (c :: s))
    as [t'|] eqn:E6.
  { injection H as <-. rewrite getBoundaryCharacterToken_one in E6.
    destruct (is_boundary c) eqn:B; [|discriminate].
    injection E6 as <-. unfold kind_fits. cbn [value type]. exact B. }
  pose proof (boundary_None cfg c s E6) as B.
  destruct (getReservedWordToken (constructor cfg) (c :: s) prev)
    as [t'|] eqn:E7.
  { injection H as <-.
    destruct (slice_head_is_any _ _ _ (reserved_slice cfg c s prev t' W B E7) NV)
      as (v & V & A).
    unfold kind_fits. rewrite V.
    destruct (reserved_kind _ _ _ _ E7) as [K | [K | K]]; rewrite K; exact A. }
  destruct (getFunctionWordToken (constructor cfg) (c :: s)) as [t'|] eqn:E8.
  { injection H as <-.
    destruct (slice_head_is_any _ _ _ (function_slice cfg c s t' B E8) NV)
      as (v & V & A).
    unfold kind_fits. rewrite V.
    unfold getFunctionWordToken in E8. apply first_match_type in E8.
    rewrite E8. exact A. }
  cbn [orelse] in H. rewrite getNonReservedWordToken_run in H.
  injection H as <-.
  assert (C : is_word_char c = true).
  { unfold is_word_char, is_word_stop. rewrite W, B.
    unfold getQuotedStringToken in E3.
    destruct (mem c [dquote; squote; backtick; lbracket]) eqn:Q;
      [discriminate|].
    unfold is_quote, mem in Q |- *. cbn [existsb] in Q |- *.
    destruct (c =? dquote), (c =? squote), (c =? backtick);
      simpl in Q |- *; try reflexivity; discriminate Q. }
  unfold kind_fits. cbn [value type take_while]. rewrite C.
  cbn [head_is forallb]. rewrite C, take_while_all. reflexivity.
Qed.

Lemma produced_kind_fits cfg : forall tokens prev,
  produced (constructor cfg) prev tokens -> forallb kind_fits tokens = true.
Proof.
  induction tokens as [|t more IH]; intros prev P; [reflexivity|].
  destruct P as ((input & N & G & V) & P).
  destruct input as [|c s]; [contradiction|].
  cbn [forallb]. rewrite (getNextToken_kind_fits cfg c s prev t G V).
  apply (IH (Some t)). exact P.
Qed.

(** X14.  For a configuration of keyword strings, in the tokens that
    [tokenize] returns, the kind of a token fits its text: a WHITESPACE is made of space characters only, a BOUNDARY is
    one boundary character, a WORD holds no space, quote character or
    boundary; a comment starts with a hash or a dash, a block comment with
    a slash, a QUOTE with a double or single quote, a BACKTICK_QUOTE with a
    backtick or an opening bracket, a VARIABLE with its sigil, a NUMBER
    with a digit or a minus sign; and no text is empty. *)
Theorem returned_kinds_fit_texts cfg input tokens :
  keyword_cfg cfg = true ->
  tokenize (constructor cfg) input = Some (Returned tokens) ->
  forallb kind_fits tokens = true.
Proof.
  intros _ H. unfold tokenize, tokenize_fuel in H.
  apply tokenize_loop_produced in H. destruct H as (more & -> & P).
  apply (produced_kind_fits cfg more None). exact P.
Qed.

(** X14 on an input with a token of nine of the kinds. *)
Lemma returned_kinds_fit_texts_witness :
  forallb kind_fits
    [tok RESERVED_TOPLEVEL "select"; tok WHITESPACE " ";
     tok RESERVED "count"; tok BOUNDARY "("; tok VARIABLE "@a";
     tok BOUNDARY ")"; tok BOUNDARY ","; tok NUMBER "-1";
     tok BOUNDARY ","; tok QUOTE "'x'"; tok BOUNDARY ",";
     tok BACKTICK_QUOTE "`y`"; tok WHITESPACE " "; tok WORD "z";
     tok WHITESPACE " "; tok COMMENT "-- c"]
  = true.
Proof.
  apply (returned_kinds_fit_texts sample_cfg
           (codes "select count(@a),-1,'x',`y` z -- c"));
    reflexivity.
Defined.

(** ** A comment before a carriage return *)

Lemma getLineCommentToken_none cfg opener body c tail :
  opener = codes "#" \/ opener = codes "--" ->
  forallb is_dot body = true ->
  is_dot c = false -> c <> newline ->
  getLineCommentToken (constructor cfg) (opener ++ body ++ c :: tail) = None.
Proof.
  intros O D Dc N. unfold getLineCommentToken, getTokenOnFirstMatch, match1.
  rewrite (line_comment_scan cfg opener _ O).
  rewrite line_scan_body by exact D.
  cbn [lazy_scan]. unfold line_end. rewrite m_Char. cbn [m].
  assert (E : char_match false newline c = false).
  { unfold char_match. apply N.eqb_neq. congruence. }
  rewrite E, Dc. reflexivity.
Qed.

Lemma star_char_stop i greedy a c s k n :
  char_match i a c = false ->
  star_loop greedy (m i (Char a)) k n (c :: s) = k (c :: s).
Proof.
  intros E. destruct n; [reflexivity|].
  cbn [star_loop]. rewrite m_Char, E.
  destruct greedy, (k (c :: s)); reflexivity.
Qed.

(** Two dashes start no number. *)
Lemma getNumberToken_dashes cfg s :
  getNumberToken (constructor cfg) (chr "-" :: chr "-" :: s) = None.
Proof.
  unfold getNumberToken, getTokenOnFirstMatch, match1.
  set (k := fun s1 : str =>
              m (ignoreCase (NUMBER_REGEX (constructor cfg)))
                (rest (NUMBER_REGEX (constructor cfg))) s1 (fun _ => Some s1)).
  change (m (ignoreCase (NUMBER_REGEX (constructor cfg)))
            (group1 (NUMBER_REGEX (constructor cfg)))
            (chr "-" :: chr "-" :: s) k)
    with (orelse
            (orelse
               (star_loop true (m false (Char (chr "s")))
                  (fun s1 =>
                     if (List.length s1
                         =? List.length (chr "-" :: chr "-" :: s))%nat
                     then None else m false digits_part s1 k)
                  (List.length (chr "-" :: s)) (chr "-" :: s))
               None)
            None).
  rewrite star_char_stop by reflexivity.
  rewrite length_tail_neq. reflexivity.
Qed.

(** X15.  When the first line terminator after a hash or two dashes is a
    carriage return (or a line or paragraph separator) and not the newline,
    the chain yields no comment: the token is the BOUNDARY made of the
    first character of the opener. *)
Theorem comment_opener_before_carriage_return cfg opener body c tail prev :
  opener = codes "#" \/ opener = codes "--" ->
  forallb is_dot body = true ->
  is_dot c = false -> c <> newline ->
  getNextToken (constructor cfg) (opener ++ body ++ c :: tail) prev
  = Some (mkToken BOUNDARY (Some (firstn 1 opener))).
Proof.
  intros O D Dc N. unfold getNextToken, getCommentToken.
  rewrite (getLineCommentToken_none cfg opener body c tail O D Dc N).
  rewrite getWhitespaceToken_run, getBoundaryCharacterToken_one.
  destruct O as [-> | ->].
  - destruct body; reflexivity.
  - change (codes "--" ++ body ++ c :: tail)
      with (chr "-" :: chr "-" :: body ++ c :: tail).
    rewrite getNumberToken_dashes. reflexivity.
Qed.

(** X15 on a hash comment that ends with a carriage return and a
    newline. *)
Lemma comment_opener_before_carriage_return_witness :
  getNextToken (constructor sample_cfg)
    (codes "# a" ++ 13 :: newline :: codes "x") None
  = Some (tok BOUNDARY "#").
Proof.
  apply (comment_opener_before_carriage_return sample_cfg (codes "#")
           (codes " a") 13 (newline :: codes "x") None);
    [left; reflexivity | reflexivity | reflexivity | discriminate].
Defined.

(** ** What follows a number *)

Lemma strip_exact w : forall s s', strip false w s = Some s' -> s = w ++ s'.
Proof.
  induction w as [|a w IH]; intros s s' H; simpl in H.
  - injection H as <-. reflexivity.
  - destruct s as [|c s]; [discriminate|].
    destruct (N.eqb_spec a c) as [-> | _]; [|discriminate].
    apply IH in H. rewrite H. reflexivity.
Qed.

Lemma number_rest_first c s :
  rest_matches false number_rest (c :: s)
  = is_space c || is_some (strip false [dquote; squote; backtick] (c :: s))
    || is_boundary c.
Proof.
  unfold rest_matches, number_rest.
  change (m false (alts Eoi [Class is_space; Lit [dquote; squote; backtick];
                             boundaries]) (c :: s) (fun _ => Some (c :: s)))
    with (orelse (if is_space c then Some (c :: s) else None)
          (orelse (m false (Lit [dquote; squote; backtick]) (c :: s)
                     (fun _ => Some (c :: s)))
                  (m false boundaries (c :: s) (fun _ => Some (c :: s))))).
  rewrite m_boundaries, m_Lit. fold (is_boundary c).
  destruct (is_space c), (strip false _ (c :: s)), (is_boundary c);
    reflexivity.
Qed.

(** X16.  A NUMBER token is a prefix of the input, and what follows it is
    the end of the input, a space, a boundary, or the three characters
    double quote, single quote, backtick in a row; a single quote character
    does not end a number. *)
Theorem number_is_followed_by_a_stop cfg input t :
  getNumberToken (constructor cfg) input = Some t ->
  exists v s',
    value t = Some v /\ input = v ++ s'
    /\ (s' = []
        \/ head_is (fun c => is_space c || is_boundary c) s' = true
        \/ exists s'', s' = [dquote; squote; backtick] ++ s'').
Proof.
  unfold getNumberToken, getTokenOnFirstMatch.
  destruct (match1 input _) as [v|] eqn:E; [|discriminate].
  intros H; injection H as <-.
  apply match1_inv in E. destruct E as (s' & E & _ & R).
  exists v, s'. split; [reflexivity|]. split; [exact E|].
  destruct s' as [|c s']; [left; reflexivity | right].
  change (rest_matches false number_rest (c :: s') = true) in R.
  rewrite number_rest_first in R. cbn [head_is].
  destruct (strip false [dquote; squote; backtick] (c :: s'))
    as [s''|] eqn:S.
  - right. exists s''. apply strip_exact. exact S.
  - left. destruct (is_space c), (is_boundary c);
      try reflexivity; discriminate R.
Qed.

(** X16 on a number before a closing parenthesis. *)
Lemma number_is_followed_by_a_stop_witness :
  exists v s',
    value (tok NUMBER "12") = Some v /\ codes "12)" = v ++ s'
    /\ (s' = []
        \/ head_is (fun c => is_space c || is_boundary c) s' = true
        \/ exists s'', s' = [dquote; squote; backtick] ++ s'').
Proof.
  apply (number_is_followed_by_a_stop sample_cfg (codes "12)")).
  reflexivity.
Defined.

(** ** One step of the chain *)

(** X17.  For a configuration of keyword strings, on a non-empty input the
    chain always yields a token.  Its text is a non-empty prefix of the
    input, with two exceptions that both come from a quote that
    [STRING_REGEX] does not match: the quote token with no text, and the
    VARIABLE token whose text is the sigil followed by "undefined". *)
Theorem chain_yields_a_prefix cfg c s prev :
  keyword_cfg cfg = true ->
  exists t,
    getNextToken (constructor cfg) (c :: s) prev = Some t
    /\ step_result (constructor cfg) (c :: s) t.
Proof.
  intros _. apply getNextToken_step. discriminate.
Qed.

(** X17 on a sigil followed by a quote that [STRING_REGEX] does not
    match. *)
Lemma chain_yields_a_prefix_witness :
  exists t,
    getNextToken (constructor sample_cfg)
      (chr "@" :: [dquote; backslash]) None = Some t
    /\ step_result (constructor sample_cfg)
         (chr "@" :: [dquote; backslash]) t.
Proof.
  apply (chain_yields_a_prefix sample_cfg (chr "@") [dquote; backslash]
           None).
  reflexivity.
Defined.

(** ** Decimal numbers *)

Lemma digit_facts c :
  is_digit c = true ->
  is_space c = false /\ is_boundary c = false
  /\ char_match false (chr "-") c = false
  /\ char_match false (chr "s") c = false.
Proof.
  unfold is_digit, in_range. intros H. apply andb_true_iff in H.
  destruct H as [L U]. apply N.leb_le in L, U.
  split; [|split; [|split]].
  - unfold is_space, mem. cbn [existsb].
    repeat (apply orb_false_iff; split); try (apply N.eqb_neq; lia);
      try reflexivity.
    apply andb_false_iff. left. apply N.leb_gt. lia.
  - unfold is_boundary, mem.
    let l := eval vm_compute in (codes boundary_chars) in
    change (codes boundary_chars) with l.
    cbn [existsb].
    repeat (apply orb_false_iff; split); try (apply N.eqb_neq; lia);
      reflexivity.
  - unfold char_match. apply N.eqb_neq. change (chr "-") with 45. lia.
  - unfold char_match. apply N.eqb_neq. change (chr "s") with 115. lia.
Qed.

Lemma drop_while_app p : forall a b,
  forallb p a = true -> drop_while p (a ++ b) = drop_while p b.
Proof.
  induction a as [|x a IH]; intros b H; [reflexivity|].
  simpl in H. apply andb_true_iff in H. destruct H as [H1 H2].
  simpl. rewrite H1. apply IH. exact H2.
Qed.

Lemma number_stop_facts tail :
  number_stop tail = true ->
  drop_while is_digit tail = tail
  /\ rest_matches false number_rest tail = true
  /\ (forall r k, m false (Seq (Char (chr ".")) r) tail k = None).
Proof.
  destruct tail as [|c t]; intros H.
  - repeat split.
  - simpl in H. apply andb_true_iff in H. destruct H as [S D].
    apply negb_true_iff in D.
    split; [|split].
    + simpl. destruct (is_digit c) eqn:E; [|reflexivity].
      apply digit_facts in E. destruct E as (E1 & E2 & _).
      rewrite E1, E2 in S. discriminate S.
    + rewrite number_rest_first.
      destruct (is_space c), (is_boundary c); try reflexivity;
        try discriminate S.
      * rewrite orb_true_r. reflexivity.
    + intros r k. rewrite m_Seq_Char.
      rewrite (char_match_false (chr ".") c), D. reflexivity.
Qed.

Lemma digits_part_match ds tail :
  ds <> [] -> forallb is_digit ds = true -> number_stop tail = true ->
  m false digits_part (ds ++ tail)
    (fun s1 => m false number_rest s1 (fun _ => Some s1))
  = Some tail.
Proof.
  intros N D S. destruct ds as [|d ds]; [contradiction|].
  simpl in D. apply andb_true_iff in D. destruct D as [Dd D].
  destruct (number_stop_facts tail S) as (T1 & T2 & T3).
  unfold digits_part.
  change (m false
            (Seq (Plus (Class is_digit))
               (Opt (Seq (Char (chr ".")) (Plus (Class is_digit)))))
            ((d :: ds) ++ tail)
            (fun s1 => m false number_rest s1 (fun _ => Some s1)))
    with (m false (Plus (Class is_digit)) (d :: ds ++ tail)
            (fun s1 =>
               orelse
                 (m false (Seq (Char (chr ".")) (Plus (Class is_digit))) s1
                    (fun s2 =>
                       if (List.length s2 =? List.length s1)%nat then None
                       else m false number_rest s2 (fun _ => Some s2)))
                 (m false number_rest s1 (fun _ => Some s1)))).
  rewrite m_Plus_class, Dd.
  apply star_class_greedy; [lia|].
  rewrite (drop_while_app _ _ _ D), T1, T3. cbn [orelse].
  rewrite rest_matches_value, T2. reflexivity.
Qed.

(** X18.  A run of digits, with or without a minus sign directly before
    it, is a NUMBER token when it stands before the end of the input, a
    space, or a boundary other than the dot; the token is the sign and the
    digits. *)
Theorem digits_are_a_number cfg sign ds tail :
  sign = [] \/ sign = codes "-" ->
  ds <> [] -> forallb is_digit ds = true -> number_stop tail = true ->
  getNumberToken (constructor cfg) (sign ++ ds ++ tail)
  = Some (mkToken NUMBER (Some (sign ++ ds))).
Proof.
  intros G N D S. unfold getNumberToken, getTokenOnFirstMatch.
  rewrite (match1_exact _ _ (sign ++ ds) tail);
    [reflexivity | | rewrite app_assoc; reflexivity].
  pose proof (digits_part_match ds tail N D S) as P.
  destruct ds as [|d ds]; [contradiction|].
  assert (Dd : is_digit d = true).
  { simpl in D. apply andb_true_iff in D. tauto. }
  destruct (digit_facts d Dd) as (_ & _ & Fm & Fs).
  set (k := fun s1 : str =>
              m (ignoreCase (NUMBER_REGEX (constructor cfg)))
                (rest (NUMBER_REGEX (constructor cfg))) s1 (fun _ => Some s1)).
  change (m false digits_part ((d :: ds) ++ tail) k = Some tail) in P.
  change (m (ignoreCase (NUMBER_REGEX (constructor cfg)))
            (group1 (NUMBER_REGEX (constructor cfg)))
            (sign ++ (d :: ds) ++ tail) k)
    with (orelse
            (orelse
               (m false (Seq (Char (chr "-")) (Star true (Char (chr "s"))))
                  (sign ++ (d :: ds) ++ tail)
                  (fun s1 =>
                     if (List.length s1
                         =? List.length (sign ++ (d :: ds) ++ tail))%nat
                     then None else m false digits_part s1 k))
               (m false digits_part (sign ++ (d :: ds) ++ tail) k))
            (m false
               (Alt (Seq (Lit (codes "0x")) (Plus (Class is_hex)))
                    (Seq (Lit (codes "0b")) (Plus (Class is_bin))))
               (sign ++ (d :: ds) ++ tail) k)).
  rewrite m_Seq_Char.
  destruct G as [-> | ->].
  - change ([] ++ (d :: ds) ++ tail) with ((d :: ds) ++ tail).
    change ((d :: ds) ++ tail) with (d :: ds ++ tail) at 1.
    cbv iota. rewrite Fm. cbn [orelse].
    rewrite P. reflexivity.
  - change (codes "-" ++ (d :: ds) ++ tail)
      with (chr "-" :: d :: ds ++ tail).
    cbv iota. rewrite char_match_refl.
    change (m false (Star true (Char (chr "s"))) (d :: ds ++ tail)
              (fun s1 =>
                 if (List.length s1
                     =? List.length (chr "-" :: d :: ds ++ tail))%nat
                 then None else m false digits_part s1 k))
      with (star_loop true (m false (Char (chr "s")))
              (fun s1 =>
                 if (List.length s1
                     =? List.length (chr "-" :: d :: ds ++ tail))%nat
                 then None else m false digits_part s1 k)
              (List.length (d :: ds ++ tail)) (d :: ds ++ tail)).
    rewrite (star_char_stop false true _ _ _ _ _ Fs).
    rewrite length_tail_neq.
    change (d :: ds ++ tail) with ((d :: ds) ++ tail).
    rewrite P. reflexivity.
Qed.

(** X18 on [-42] before a closing parenthesis. *)
Lemma digits_are_a_number_witness :
  getNumberToken (constructor sample_cfg) (codes "-42)")
  = Some (tok NUMBER "-42").
Proof.
  apply (digits_are_a_number sample_cfg (codes "-") (codes "42") (codes ")"));
    [right; reflexivity | discriminate | reflexivity | reflexivity].
Defined.

(** ** Case variants *)

Lemma letter_not_stop x :
  in_range 97 122 x = true \/ in_range 65 90 x = true ->
  is_space x = false /\ is_boundary x = false.
Proof.
  unfold in_range. intros H.
  assert (R : 65 <= x <= 90 \/ 97 <= x <= 122).
  { destruct H as [H | H]; apply andb_true_iff in H; destruct H as [L U];
      apply N.leb_le in L, U; lia. }
  clear H. split.
  - unfold is_space, mem. cbn [existsb].
    repeat (apply orb_false_iff; split); try (apply N.eqb_neq; lia);
      try reflexivity.
    apply andb_false_iff. left. apply N.leb_gt. lia.
  - unfold is_boundary, mem.
    let l := eval vm_compute in (codes boundary_chars) in
    change (codes boundary_chars) with l.
    cbn [existsb].
    repeat (apply orb_false_iff; split); try (apply N.eqb_neq; lia);
      reflexivity.
Qed.

Lemma canonical_stop x y :
  canonicalize x = canonicalize y ->
  is_space x = is_space y /\ is_boundary x = is_boundary y.
Proof.
  unfold canonicalize. intros H.
  destruct (in_range 97 122 x) eqn:X, (in_range 97 122 y) eqn:Y.
  - destruct (letter_not_stop x (or_introl X)) as [-> ->].
    destruct (letter_not_stop y (or_introl Y)) as [-> ->]. auto.
  - assert (U : in_range 65 90 y = true).
    { subst y. unfold in_range in X |- *. apply andb_true_iff in X.
      destruct X as [L U]. apply N.leb_le in L, U.
      apply andb_true_iff. split; apply N.leb_le; lia. }
    destruct (letter_not_stop x (or_introl X)) as [-> ->].
    destruct (letter_not_stop y (or_intror U)) as [-> ->]. auto.
  - assert (U : in_range 65 90 x = true).
    { subst x. unfold in_range in Y |- *. apply andb_true_iff in Y.
      destruct Y as [L U]. apply N.leb_le in L, U.
      apply andb_true_iff. split; apply N.leb_le; lia. }
    destruct (letter_not_stop x (or_intror U)) as [-> ->].
    destruct (letter_not_stop y (or_introl Y)) as [-> ->]. auto.
  - subst y. auto.
Qed.

Lemma word_end_head c s :
  rest_matches true word_end (c :: s) = is_space c || is_boundary c.
Proof.
  unfold rest_matches, word_end.
  change (m true (alts Eoi [Class is_space; boundaries]) (c :: s)
            (fun _ => Some (c :: s)))
    with (orelse (if is_space c then Some (c :: s) else None)
                 (m true boundaries (c :: s) (fun _ => Some (c :: s)))).
  rewrite m_boundaries. fold (is_boundary c).
  destruct (is_space c), (is_boundary c); reflexivity.
Qed.

Lemma word_end_same a b :
  same_letters a b = true ->
  rest_matches true word_end a = rest_matches true word_end b.
Proof.
  destruct a as [|x a], b as [|y b]; try discriminate; [reflexivity|].
  intros H. simpl in H. apply andb_true_iff in H. destruct H as [H _].
  apply N.eqb_eq in H. rewrite !word_end_head.
  destruct (canonical_stop x y H) as [-> ->]. reflexivity.
Qed.

Lemma paren_same a b :
  same_letters a b = true ->
  rest_matches true (Char (chr "(")) a = rest_matches true (Char (chr "(")) b.
Proof.
  destruct a as [|x a], b as [|y b]; try discriminate; [reflexivity|].
  intros H. simpl in H. apply andb_true_iff in H. destruct H as [H _].
  apply N.eqb_eq in H. unfold rest_matches. rewrite !m_Char.
  unfold char_match. rewrite H.
  destruct (_ =? _); reflexivity.
Qed.

Lemma strip_same w : forall a b,
  same_letters a b = true ->
  match strip true w a, strip true w b with
  | Some a', Some b' => same_letters a' b' = true
  | None, None => True
  | _, _ => False
  end.
Proof.
  induction w as [|c w IH]; intros a b H; [exact H|].
  destruct a as [|x a], b as [|y b]; try discriminate; [exact I|].
  simpl in H. apply andb_true_iff in H. destruct H as [E H].
  apply N.eqb_eq in E. cbn [strip]. unfold char_match. rewrite E.
  destruct (canonicalize c =? canonicalize y); [apply IH; exact H | exact I].
Qed.

Lemma first_word_same r a b :
  (forall a' b', same_letters a' b' = true ->
                 rest_matches true r a' = rest_matches true r b') ->
  same_letters a b = true ->
  forall ws,
    (first_word true r ws a = None /\ first_word true r ws b = None)
    \/ exists n, first_word true r ws a = Some (firstn n a)
                 /\ first_word true r ws b = Some (firstn n b).
Proof.
  intros R H. induction ws as [|w ws IH]; [left; split; reflexivity|].
  cbn [first_word]. pose proof (strip_same w a b H) as S.
  destruct (strip true w a) as [a'|], (strip true w b) as [b'|];
    try contradiction; [|exact IH].
  rewrite (R a' b' S).
  destruct (rest_matches true r b'); [|exact IH].
  right. exists (List.length w). split; reflexivity.
Qed.

Lemma token_of_alike ty a b va vb :
  (va = None /\ vb = None)
  \/ (exists n, va = Some (firstn n a) /\ vb = Some (firstn n b)) ->
  alike a b (token_of ty va) (token_of ty vb).
Proof.
  intros [[-> ->] | (n & -> & ->)]; [left; split; reflexivity|].
  right. exists ty, n. split; reflexivity.
Qed.

(** X19.  For a configuration of keyword strings, the keyword matchers do
    not see the case of the letters a to z: on two inputs that differ in
    case only, the reserved-word matcher (and the function-word matcher)
    gives nothing on both, or tokens of the same kind and the same length,
    each with the text as its own input writes it. *)
Theorem keyword_matchers_ignore_case cfg a b prev :
  keyword_cfg cfg = true ->
  same_letters a b = true ->
  alike a b (getReservedWordToken (constructor cfg) a prev)
            (getReservedWordToken (constructor cfg) b prev)
  /\ alike a b (getFunctionWordToken (constructor cfg) a)
               (getFunctionWordToken (constructor cfg) b).
Proof.
  intros _ H.
  assert (T : forall ty re va vb,
    match1 a re = va -> match1 b re = vb ->
    getTokenOnFirstMatch a ty re = token_of ty va
    /\ getTokenOnFirstMatch b ty re = token_of ty vb).
  { intros ty re va vb <- <-. unfold getTokenOnFirstMatch, token_of.
    destruct (match1 a re), (match1 b re); split; reflexivity. }
  split.
  - unfold getReservedWordToken.
    destruct (is_dot_token prev); [left; split; reflexivity|].
    cbn [RESERVED_TOPLEVEL_REGEX RESERVED_NEWLINE_REGEX RESERVED_REGEX
         constructor].
    unfold reserved_regex.
    assert (W : forall ty ws,
      alike a b (getTokenOnFirstMatch a ty (mkRegExp (join ws) word_end true))
                (getTokenOnFirstMatch b ty (mkRegExp (join ws) word_end true))).
    { intros ty ws.
      destruct (T ty (mkRegExp (join ws) word_end true) _ _ eq_refl eq_refl)
        as [-> ->].
      rewrite !keyword_match_first_word. apply token_of_alike.
      apply (first_word_same word_end a b word_end_same H). }
    destruct (W RESERVED_TOPLEVEL (reservedToplevelWords cfg))
      as [[-> ->] | (ty & n & -> & ->)];
      [|right; exists ty, n; split; reflexivity].
    destruct (W RESERVED_NEWLINE (reservedNewlineWords cfg))
      as [[-> ->] | (ty & n & -> & ->)];
      [|right; exists ty, n; split; reflexivity].
    apply W.
  - unfold getFunctionWordToken.
    cbn [FUNCTION_REGEX constructor].
    destruct (T RESERVED
                (mkRegExp (join (functionWords cfg)) (Char (chr "(")) true)
                _ _ eq_refl eq_refl) as [-> ->].
    rewrite !keyword_match_first_word. apply token_of_alike.
    apply (first_word_same (Char (chr "(")) a b paren_same H).
Qed.

(** X19 on [Select] and [SELECT] before a space. *)
Lemma keyword_matchers_ignore_case_witness :
  alike (codes "Select a") (codes "SELECT a")
    (getReservedWordToken (constructor sample_cfg) (codes "Select a") None)
    (getReservedWordToken (constructor sample_cfg) (codes "SELECT a") None)
  /\ alike (codes "Select a") (codes "SELECT a")
       (getFunctionWordToken (constructor sample_cfg) (codes "Select a"))
       (getFunctionWordToken (constructor sample_cfg) (codes "SELECT a")).
Proof.
  apply (keyword_matchers_ignore_case sample_cfg); reflexivity.
Defined.

(** ** Function words *)

(** X20.  For a configuration of keyword strings, a token of the
    function-word matcher is a prefix of the input that stands directly
    before an opening parenthesis, and the parenthesis is not part of the
    token. *)
Theorem function_word_is_followed_by_parenthesis cfg input t :
  keyword_cfg cfg = true ->
  getFunctionWordToken (constructor cfg) input = Some t ->
  exists v s',
    t = mkToken RESERVED (Some v) /\ input = v ++ chr "(" :: s'.
Proof.
  intros _. unfold getFunctionWordToken, getTokenOnFirstMatch.
  destruct (match1 input _) as [v|] eqn:E; [|discriminate].
  intros H; injection H as <-.
  apply match1_inv in E. destruct E as (s' & E & _ & R).
  cbn [ignoreCase rest FUNCTION_REGEX constructor] in R.
  unfold rest_matches in R. destruct s' as [|c s']; [discriminate R|].
  rewrite m_Char in R.
  destruct (char_match true (chr "(") c) eqn:C; [|discriminate R].
  rewrite char_match_nonletter in C by reflexivity.
  apply N.eqb_eq in C. subst c.
  exists v, s'. split; [reflexivity | exact E].
Qed.

(** X20 on [COUNT] before a parenthesis. *)
Lemma function_word_is_followed_by_parenthesis_witness :
  exists v s',
    tok RESERVED "COUNT" = mkToken RESERVED (Some v)
    /\ codes "COUNT(*)" = v ++ chr "(" :: s'.
Proof.
  apply (function_word_is_followed_by_parenthesis sample_cfg
           (codes "COUNT(*)")); reflexivity.
Defined.

(** ** The scan continues afresh *)

Lemma getNextToken_prev this input p p' :
  is_dot_token p = is_dot_token p' ->
  getNextToken this input p = getNextToken this input p'.
Proof.
  intros H. unfold getNextToken, getReservedWordToken. rewrite H.
  reflexivity.
Qed.

Lemma tokenize_loop_acc this : forall fuel input prev acc,
  tokenize_loop this fuel input prev acc
  = shift acc (tokenize_loop this fuel input prev []).
Proof.
  induction fuel as [|fuel IH]; intros input prev acc.
  - destruct input; simpl; [rewrite app_nil_r|]; reflexivity.
  - destruct input as [|c s]; [simpl; rewrite app_nil_r; reflexivity|].
    cbn [tokenize_loop].
    destruct (getNextToken this (c :: s) prev) as [t|]; [|reflexivity].
    destruct (value t) as [v|]; [|reflexivity].
    rewrite (IH _ _ (acc ++ [t])), (IH _ _ ([] ++ [t])).
    destruct (tokenize_loop this fuel _ (Some t) []) as [[l | e]|];
      simpl; [rewrite <- app_assoc|..]; reflexivity.
Qed.

Lemma tokenize_loop_prev this fuel input p p' acc :
  is_dot_token p = is_dot_token p' ->
  tokenize_loop this fuel input p acc = tokenize_loop this fuel input p' acc.
Proof.
  intros H. destruct fuel as [|fuel]; [reflexivity|].
  destruct input as [|c s]; [reflexivity|].
  cbn [tokenize_loop]. rewrite (getNextToken_prev this (c :: s) p p' H).
  reflexivity.
Qed.

(** X21.  The scan of what remains after a token does not depend on what
    came before, except right after a dot: when the first token of a
    non-empty input has a text that is not a dot, tokenizing the input
    gives that token followed by the tokens of the rest of the input (or
    the failure of the rest). *)
Theorem tokenize_continues_afresh cfg input t v :
  input <> [] ->
  getNextToken (constructor cfg) input None = Some t ->
  value t = Some v ->
  v <> codes "." ->
  tokenize (constructor cfg) input
  = prepend t (tokenize (constructor cfg) (skipn (List.length v) input)).
Proof.
  intros N G V D. destruct input as [|c s]; [contradiction|].
  unfold tokenize at 1. unfold tokenize_fuel.
  change (List.length (c :: s)) with (S (List.length s)).
  rewrite (tokenize_loop_step _ _ _ _ _ t v _ N G V eq_refl).
  set (rest := skipn (List.length v) (c :: s)).
  assert (L : (List.length rest <= List.length s)%nat).
  { destruct (getNextToken_step cfg (c :: s) None N) as (t' & G' & R).
    assert (t' = t) by congruence. subst t'.
    destruct R as [v' s' V' N' E | c' s' E Q U V' | c0 c1 s' E Q U ->].
    - assert (v' = v) by congruence. subst v'.
      destruct v as [|x v]; [contradiction|]. apply skipn_shorter.
    - congruence.
    - injection V as <-. apply (skipn_shorter 9). }
  destruct (tokenize_loop_total cfg (List.length rest) rest None [])
    as (r & H); [lia|].
  unfold tokenize, tokenize_fuel. rewrite H.
  rewrite tokenize_loop_acc.
  rewrite (tokenize_loop_prev _ _ _ (Some t) None).
  - rewrite (tokenize_loop_more _ _ _ _ _ _ _ H L).
    destruct r as [l | e]; reflexivity.
  - unfold is_dot_token. rewrite V.
    destruct v as [|x [|y v]]; try reflexivity.
    destruct (N.eqb_spec x (chr ".")) as [-> | _]; [|reflexivity].
    exfalso. apply D. reflexivity.
Qed.

(** X21 on [select 1]. *)
Lemma tokenize_continues_afresh_witness :
  tokenize (constructor sample_cfg) (codes "select 1")
  = prepend (tok RESERVED_TOPLEVEL "select")
      (tokenize (constructor sample_cfg)
         (skipn (List.length (codes "select")) (codes "select 1"))).
Proof.
  apply (tokenize_continues_afresh sample_cfg (codes "select 1")
           (tok RESERVED_TOPLEVEL "select") (codes "select"));
    [discriminate | reflexivity | reflexivity | discriminate].
Defined.

(** ** Whitespace is never split *)

(** Only the whitespace matcher gives the kind WHITESPACE. *)
Lemma whitespace_kind_origin this input prev t :
  getNextToken this input prev = Some t ->
  type t = WHITESPACE ->
  getWhitespaceToken this input = Some t.
Proof.
  unfold getNextToken. intros H K.
  assert (X : forall ty re t',
    getTokenOnFirstMatch input ty re = Some t' -> t' = t ->
    ty <> WHITESPACE -> False).
  { intros ty re t' E <- N1. apply first_match_type in E. congruence. }
  destruct (getWhitespaceToken this input) as [t'|] eqn:E1; [exact H|].
  exfalso. cbn [orelse] in H.
  destruct (getCommentToken this input) as [t'|] eqn:E2.
  { injection H as H. unfold getCommentToken in E2.
    destruct (getLineCommentToken this input) as [t''|] eqn:E.
    - injection E2 as <-. apply (X _ _ _ E H); discriminate.
    - apply (X _ _ _ E2 H); discriminate. }
  destruct (getQuotedStringToken this input) as [t'|] eqn:E3.
  { injection H as <-. unfold getQuotedStringToken in E3.
    destruct input as [|c s]; [discriminate|].
    destruct (mem c _); [|discriminate]. injection E3 as <-.
    cbn [type] in K.
    match type of K with context [if ?b then _ else _] => destruct b end;
      discriminate K. }
  destruct (getVariableToken this input) as [t'|] eqn:E4.
  { injection H as H. unfold getVariableToken in E4.
    destruct input as [|c0 [|c1 s]]; try discriminate.
    destruct (mem c0 _); [|discriminate].
    destruct (mem c1 _).
    - injection E4 as <-. subst t. discriminate K.
    - apply (X _ _ _ E4 H); discriminate. }
  destruct (getNumberToken this input) as [t'|] eqn:E5.
  { injection H as H. apply (X _ _ _ E5 H); discriminate. }
  destruct (getBoundaryCharacterToken this input) as [t'|] eqn:E6.
  { injection H as H. apply (X _ _ _ E6 H); discriminate. }
  destruct (getReservedWordToken this input prev) as [t'|] eqn:E7.
  { injection H as <-.
    destruct (reserved_kind _ _ _ _ E7) as [K' | [K' | K']]; congruence. }
  cbn [orelse] in H.
  destruct (getFunctionWordToken this input) as [t'|] eqn:E8.
  { injection H as H. apply (X _ _ _ E8 H); discriminate. }
  apply (X _ _ _ H eq_refl); discriminate.
Qed.

Lemma skipn_take_while p : forall s,
  skipn (List.length (take_while p s)) s = drop_while p s.
Proof.
  induction s as [|c s IH]; [reflexivity|].
  simpl. destruct (p c); [exact IH | reflexivity].
Qed.

Lemma drop_while_head_is p s : head_is p (drop_while p s) = false.
Proof.
  destruct (drop_while p s) as [|y s'] eqn:D; [reflexivity|].
  apply drop_while_head in D. simpl. tauto.
Qed.

Lemma tokenize_loop_whitespace cfg : forall fuel input prev acc tokens,
  (is_whitespace_token prev = true -> head_is is_space input = false) ->
  tokenize_loop (constructor cfg) fuel input prev acc
  = Some (Returned tokens) ->
  exists more, tokens = acc ++ more /\ no_double_whitespace prev more.
Proof.
  induction fuel as [|fuel IH]; intros input prev acc tokens P H.
  - destruct input; [|discriminate]. injection H as <-.
    exists []. rewrite app_nil_r. split; [reflexivity | exact I].
  - destruct input as [|c s].
    { injection H as <-. exists []. rewrite app_nil_r.
      split; [reflexivity | exact I]. }
    cbn [tokenize_loop] in H.
    destruct (getNextToken (constructor cfg) (c :: s) prev) as [t|] eqn:G;
      [|discriminate].
    destruct (value t) as [v|] eqn:V; [|discriminate].
    assert (W : type t = WHITESPACE ->
                v = take_while is_space (c :: s) /\ is_space c = true).
    { intros K. apply whitespace_kind_origin in G; [|exact K].
      rewrite getWhitespaceToken_run in G. cbn [take_while] in G |- *.
      destruct (is_space c); [|discriminate].
      injection G as <-. simpl in V. injection V as <-. auto. }
    apply IH in H.
    + destruct H as (more & -> & Q).
      exists (t :: more). rewrite <- app_assoc.
      split; [reflexivity|]. split; [|exact Q].
      intros Pw K. apply W in K. destruct K as [_ K].
      apply P in Pw. simpl in Pw. congruence.
    + unfold is_whitespace_token.
      destruct (type t) eqn:K; try discriminate. intros _.
      destruct (W eq_refl) as [-> _].
      rewrite skipn_take_while. apply drop_while_head_is.
Qed.

(** X22.  A run of white space is never split: in the tokens that
    [tokenize] returns no WHITESPACE token comes right after another
    one. *)
Theorem whitespace_tokens_are_not_adjacent cfg input tokens :
  tokenize (constructor cfg) input = Some (Returned tokens) ->
  no_double_whitespace None tokens.
Proof.
  intros H. unfold tokenize, tokenize_fuel in H.
  apply tokenize_loop_whitespace in H; [|discriminate].
  destruct H as (more & -> & Q). exact Q.
Qed.

(** X22 on an input with a run of a space, a tab and a newline. *)
Lemma whitespace_tokens_are_not_adjacent_witness :
  no_double_whitespace None
    [tok WORD "a";
     mkToken WHITESPACE (Some (codes " " ++ [9; newline]));
     tok WORD "b"].
Proof.
  apply (whitespace_tokens_are_not_adjacent sample_cfg
           (codes "a " ++ [9; newline] ++ codes "b")).
  reflexivity.
Defined.
